(** * mkcharlist.py: the Unicode name table generator, embedded and verified

    The script reads UnicodeData.txt on standard input, extracts one record
    per assigned codepoint (expanding <..., First>/<..., Last> ranges and
    dropping control characters), folds all names into one heap of text,
    longest names first, and prints a C array plus the heap.

    The embedding follows the script line by line.  Python 2 byte strings
    are lists of [ascii]; Python integers are [Z]; an uncaught exception is
    the [Raise] case of [result]; the module globals ([charlist],
    [maxnamesize], [rstart]) are threaded explicitly through the reading
    loop, and the heap through the two nested loops that build it. *)

From Stdlib Require Import List ZArith Ascii String Bool Lia DecimalString Arith.
From Stdlib Require DecimalPos DecimalZ.

Import ListNotations.

Open Scope Z_scope.

Open Scope list_scope.

(** ** The Python builtins the script relies on *)

Module Py.

Definition str := list ascii.

(** A string literal of the source. *)
Definition lit (x : string) : str := list_ascii_of_string x.

Inductive exn := ValueError | IndexError | AttributeError | TypeError | OverflowError.

Inductive result (A : Type) : Type :=
| Ok (a : A)
| Raise (e : exn).
Arguments Ok {A} a.
Arguments Raise {A} e.

Definition bind {A B} (r : result A) (k : A -> result B) : result B :=
  match r with
  | Ok a => k a
  | Raise e => Raise e
  end.

Definition len {A} (l : list A) : Z := Z.of_nat (List.length l).

(** [l[i]] for [i >= 0]; IndexError past the end. *)
Definition getitem {A} (l : list A) (i : nat) : result A :=
  match nth_error l i with
  | Some x => Ok x
  | None => Raise IndexError
  end.

(** [l[-1]]. *)
Definition getlast {A} (l : list A) : result A :=
  match rev l with
  | x :: _ => Ok x
  | [] => Raise IndexError
  end.

Definition code (c : ascii) : N := N_of_ascii c.

(** [str.lower] in the C locale: only A-Z change. *)
Definition lower_char (c : ascii) : ascii :=
  if ((65 <=? code c) && (code c <=? 90))%N then ascii_of_N (code c + 32) else c.

Definition lower (s : str) : str := map lower_char s.

(** C [isspace] in the C locale: space, \t, \n, \v, \f, \r. *)
Definition isspace (c : ascii) : bool :=
  ((code c =? 32) || ((9 <=? code c) && (code c <=? 13)))%N.

Definition hexval (c : ascii) : option Z :=
  let n := code c in
  if ((48 <=? n) && (n <=? 57))%N then Some (Z.of_N (n - 48))
  else if ((97 <=? n) && (n <=? 102))%N then Some (Z.of_N (n - 87))
  else if ((65 <=? n) && (n <=? 70))%N then Some (Z.of_N (n - 55))
  else None.

Fixpoint lstrip (s : str) : str :=
  match s with
  | c :: s' => if isspace c then lstrip s' else s
  | [] => []
  end.

Definition strip (s : str) : str := rev (lstrip (rev (lstrip s))).

(** Value of a run of hex digits, most significant first. *)
Fixpoint hexdigits (acc : Z) (s : str) : option Z :=
  match s with
  | [] => Some acc
  | c :: s' =>
      match hexval c with
      | Some d => hexdigits (16 * acc + d) s'
      | None => None
      end
  end.

Definition strip_0x (s : str) : str :=
  match s with
  | z :: x :: rest =>
      if Ascii.eqb z "0" && (Ascii.eqb x "x" || Ascii.eqb x "X") then rest else s
  | _ => s
  end.

Definition unsigned16 (s : str) : option Z :=
  match strip_0x s with
  | [] => None
  | d => hexdigits 0 d
  end.

(** [int(s, 16)] as CPython 2 reads it (PyInt_FromString, PyOS_strtol,
    PyOS_strtoul): blanks, an optional sign, blanks again (PyOS_strtoul
    skips them after the sign, so [int('- 41', 16)] is -65), an optional
    0x prefix, at least one hex digit, blanks; anything else is a
    ValueError.  A value too large for a C long is handed to
    PyLong_FromString, which reads the same text, so the result is an
    unbounded Python integer. *)
Definition int16 (s : str) : result Z :=
  let body := strip s in
  let r :=
    match body with
    | c :: rest =>
        if Ascii.eqb c "-" then option_map Z.opp (unsigned16 (lstrip rest))
        else if Ascii.eqb c "+" then unsigned16 (lstrip rest)
        else unsigned16 body
    | [] => None
    end in
  match r with
  | Some v => Ok v
  | None => Raise ValueError
  end.

(** [s.split(sep)] for a one-character separator. *)
Fixpoint split (sep : ascii) (s : str) : list str :=
  match s with
  | [] => [[]]
  | c :: s' =>
      if Ascii.eqb c sep then [] :: split sep s'
      else match split sep s' with
           | w :: ws => (c :: w) :: ws
           | [] => [[c]]
           end
  end.

(** Iterating over a file: the lines, each with its newline, and a last
    unterminated line when there is one. *)
Fixpoint readlines (s : str) : list str :=
  match s with
  | [] => []
  | c :: s' =>
      if Ascii.eqb c "010" then [c] :: readlines s'
      else match readlines s' with
           | l :: ls => (c :: l) :: ls
           | [] => [[c]]
           end
  end.

Fixpoint startswith (s sub : str) : bool :=
  match sub, s with
  | [], _ => true
  | _ :: _, [] => false
  | a :: sub', b :: s' => Ascii.eqb a b && startswith s' sub'
  end.

(** [s.find(sub)], scanning from index [i]: the lowest index at which
    [sub] occurs, or -1. *)
Fixpoint find_from (i : Z) (s sub : str) : Z :=
  if startswith s sub then i
  else match s with
       | [] => -1
       | _ :: s' => find_from (i + 1) s' sub
       end.

Definition find (s sub : str) : Z := find_from 0 s sub.

(** An index of a slice, as Python normalises it. *)
Definition clamp (n i : Z) : Z :=
  let i := if i <? 0 then i + n else i in
  if i <? 0 then 0 else if n <? i then n else i.

(** [s[lo:hi]]. *)
Definition slice (s : str) (lo hi : Z) : str :=
  let a := clamp (len s) lo in
  let b := clamp (len s) hi in
  firstn (Z.to_nat (b - a)) (skipn (Z.to_nat a) s).

(** The values [xrange(start, stop, step)] yields, for a non-zero step.
    Lines 102 and 126 call xrange on lengths of strings, which always
    convert to a C long; there the call is this list.  The memory a huge
    range would need is left out. *)
Definition xrange3 (start stop step : Z) : list Z :=
  let n :=
    if 0 <? step then (stop - start + step - 1) / step
    else (start - stop - step - 1) / (- step) in
  map (fun k => start + Z.of_nat k * step) (seq 0 (Z.to_nat n)).

Definition xrange (start stop : Z) : list Z := xrange3 start stop 1.

(** [sys.maxint] where a C long has 64 bits. *)
Definition maxint : Z := 2 ^ 63 - 1.

(** Whether a Python integer converts to a C long. *)
Definition is_long (n : Z) : bool := (- maxint - 1 <=? n) && (n <=? maxint).

(** The call [xrange(start, stop)] on arbitrary integers (line 84): both
    arguments are converted to C longs and the number of items has to fit
    one as well (range_new in rangeobject.c); OverflowError otherwise. *)
Definition xrange_call (start stop : Z) : result (list Z) :=
  if is_long start && is_long stop && (stop - start <=? maxint)
  then Ok (xrange start stop)
  else Raise OverflowError.

(** [str(n)] for an integer, as [format] prints it. *)
Definition repr (n : Z) : str := lit (NilZero.string_of_int (Z.to_int n)).

End Py.

Import Py.

Notation "x <- e ;; k" := (Py.bind e (fun x => k))
  (at level 61, e at next level, right associativity).

(** ** The codepoint class *)

Record codepoint := Codepoint {
  uchar : Z;
  combining : Z;
  name : option str;
  namesize : Z;
  nameoffset : option Z
}.

(** [codepoint.__init__]. *)
Definition codepoint_init (u : Z) (n : str) (comb : bool) : codepoint :=
  {| uchar := u;
     combining := if comb then 1 else 0;
     name := Some n;
     namesize := len n;
     nameoffset := None |}.

Definition repr_opt (o : option Z) : str :=
  match o with
  | Some n => repr n
  | None => lit "None"
  end.

(** [codepoint.entry]. *)
Definition entry (c : codepoint) : str :=
  lit "{" ++ repr_opt (nameoffset c) ++ lit "," ++ repr (namesize c) ++ lit ","
    ++ repr (uchar c) ++ lit "," ++ repr (combining c) ++ lit "}".

(** ** Reading the data file (lines 73-92) *)

(** The maximal comma-free prefix of a string, and what follows it. *)
Fixpoint span_nocomma (s : str) : str * str :=
  match s with
  | [] => ([], [])
  | c :: s' =>
      if Ascii.eqb c "," then ([], s)
      else let (a, b) := span_nocomma s' in (c :: a, b)
  end.

(** Where [$] matches: at the end, or before a final newline. *)
Definition at_dollar (s : str) : bool :=
  match s with
  | [] => true
  | [c] => Ascii.eqb c "010"
  | _ => false
  end.

Definition list_eqb (a b : str) : bool :=
  if list_eq_dec ascii_dec a b then true else false.

(** A literal tail of the pattern, matched without regard to case and
    followed by [$]. *)
Definition tail_matches (rest : str) (pat : str) : bool :=
  let n := List.length pat in
  list_eqb (lower (firstn n rest)) pat && at_dollar (skipn n rest).

(** [re.match(r'(?i)<([^,]+), (first|last)>$', name)]: group 1 when the
    pattern matches, [None] otherwise. *)
Definition re_match (nm : str) : option str :=
  match nm with
  | c :: s' =>
      if Ascii.eqb c "<" then
        let (label, rest) := span_nocomma s' in
        match label with
        | [] => None
        | _ :: _ =>
            if tail_matches rest (lit ", first>") || tail_matches rest (lit ", last>")
            then Some label else None
        end
      else None
  | [] => None
  end.

(** The module globals the reading loop updates. *)
Record globals := Globals {
  charlist : list codepoint;
  maxnamesize : Z;
  rstart : option Z
}.

(** Lines 55, 58 and 73. *)
Definition initial : globals :=
  {| charlist := []; maxnamesize := 0; rstart := None |}.

(** The truth value of [rstart] in [if rstart:]. *)
Definition truthy (r : option Z) : bool :=
  match r with
  | None => false
  | Some v => negb (v =? 0)
  end.

(** [flags[0] == 'C' and flags[1] != 'f'] (line 76). *)
Definition is_skipped (flags : str) : result bool :=
  f0 <- getitem flags 0 ;;
  if Ascii.eqb f0 "C" then
    f1 <- getitem flags 1 ;;
    Ok (negb (Ascii.eqb f1 "f"))
  else Ok false.

(** Lines 80-90: what a line that was not skipped does to the globals. *)
Definition add_line (g : globals) (u : Z) (nm flags : str) : result globals :=
  n0 <- getitem nm 0 ;;
  if Ascii.eqb n0 "<" then
    let m := re_match nm in
    match rstart g with
    | Some r =>
        if truthy (Some r) then
          match m with
          | None => Raise AttributeError
          | Some g1 =>
              let nm' := lower g1 in
              us <- xrange_call r (u + 1) ;;
              Ok {| charlist :=
                      charlist g ++ map (fun u' => codepoint_init u' nm' false) us;
                    maxnamesize := maxnamesize g;
                    rstart := None |}
          end
        else
          Ok {| charlist := charlist g; maxnamesize := maxnamesize g; rstart := Some u |}
    | None =>
        Ok {| charlist := charlist g; maxnamesize := maxnamesize g; rstart := Some u |}
    end
  else
    Ok {| charlist := charlist g ++ [codepoint_init u nm (list_eqb flags (lit "Mn"))];
          maxnamesize := maxnamesize g;
          rstart := rstart g |}.

(** Lines 91-92. *)
Definition track_max (g : globals) : result globals :=
  c <- getlast (charlist g) ;;
  Ok (if maxnamesize g <? namesize c
      then {| charlist := charlist g; maxnamesize := namesize c; rstart := rstart g |}
      else g).

(** One iteration of the loop of line 74. *)
Definition process_line (g : globals) (line : str) : result globals :=
  match split ";" line with
  | f_uchar :: f_name :: flags :: _ =>
      skip <- is_skipped flags ;;
      if skip then Ok g
      else
        u <- int16 f_uchar ;;
        g' <- add_line g u (lower f_name) flags ;;
        track_max g'
  | _ => Raise ValueError
  end.

Fixpoint read_loop (lines : list str) (g : globals) : result globals :=
  match lines with
  | [] => Ok g
  | line :: rest => g' <- process_line g line ;; read_loop rest g'
  end.

(** The extractor on a whole input stream. *)
Definition extract (input : str) : result globals :=
  read_loop (readlines input) initial.

(** ** Building the name heap (lines 101-110) *)

(** The record once its offset is assigned and its name dropped (line 110). *)
Definition assigned (c : codepoint) (off : Z) : codepoint :=
  {| uchar := uchar c; combining := combining c; name := None;
     namesize := namesize c; nameoffset := Some off |}.

(** Lines 106-110 for one record; [find] on a dropped name is a TypeError. *)
Definition place (c : codepoint) (nameheap : str) : result (codepoint * str) :=
  match name c with
  | None => Raise TypeError
  | Some n =>
      let off := find nameheap n in
      if off =? -1 then Ok (assigned c (len nameheap), nameheap ++ n)
      else Ok (assigned c off, nameheap)
  end.

(** The inner loop (line 103) for one value of [size]. *)
Fixpoint heap_pass (size : Z) (cl : list codepoint) (nameheap : str)
  : result (list codepoint * str) :=
  match cl with
  | [] => Ok ([], nameheap)
  | c :: rest =>
      if negb (namesize c =? size) then
        r <- heap_pass size rest nameheap ;;
        Ok (c :: fst r, snd r)
      else
        p <- place c nameheap ;;
        r <- heap_pass size rest (snd p) ;;
        Ok (fst p :: fst r, snd r)
  end.

(** The outer loop (line 102) over the sizes still to do. *)
Fixpoint heap_loop (sizes : list Z) (cl : list codepoint) (nameheap : str)
  : result (list codepoint * str) :=
  match sizes with
  | [] => Ok (cl, nameheap)
  | size :: rest =>
      r <- heap_pass size cl nameheap ;;
      heap_loop rest (fst r) (snd r)
  end.

Definition build_nameheap (cl : list codepoint) (maxsize : Z)
  : result (list codepoint * str) :=
  heap_loop (xrange3 maxsize 0 (-1)) cl [].

(** ** Writing the C source (lines 115-128) *)

Definition nl : str := ["010"%char].

Definition dquote : str := ["034"%char].

Definition backslash : str := ["092"%char].

Definition output (cl : list codepoint) (nameheap : str) : str :=
  lit "/* This file is generated by mkcharlist.py. Do not edit directly. */" ++ nl
  ++ lit "#include " ++ dquote ++ lit "data.h" ++ dquote ++ nl
  ++ lit "charinfo const charlist[] = {" ++ nl
  ++ List.concat (map (fun c => entry c ++ lit "," ++ nl) cl)
  ++ lit "};" ++ nl
  ++ lit "int const charlistsize = sizeof charlist / sizeof *charlist;" ++ nl
  ++ lit "char const *charnamebuffer = " ++ dquote ++ backslash ++ nl
  ++ List.concat (map (fun i => slice nameheap i (i + 76) ++ backslash ++ nl)
               (xrange3 0 (len nameheap) 76))
  ++ dquote ++ lit ";" ++ nl.

(** ** The whole script *)

(** The three standard streams; the script reads the first and appends to
    the other two.  (The traceback the interpreter prints for an uncaught
    exception is not part of the model.) *)
Record process := Process {
  stdin : str;
  stdout : str;
  stderr : str
}.

(** Lines 73-128: the streams when the script ends, and the exception it
    died of, if any. *)
Definition main (p : process) : process * option exn :=
  match extract (stdin p) with
  | Raise e => (p, Some e)
  | Ok g =>
      let p1 := {| stdin := stdin p; stdout := stdout p;
                   stderr := stderr p ++ lit "Parsing the codepoint list ..." ++ nl |} in
      match build_nameheap (charlist g) (maxnamesize g) with
      | Raise e => (p1, Some e)
      | Ok (cl, nameheap) =>
          ({| stdin := stdin p1; stdout := stdout p1 ++ output cl nameheap;
              stderr := stderr p1 |}, None)
      end
  end.

(** A run from empty output streams. *)
Definition run (input : str) : process * option exn :=
  main {| stdin := input; stdout := []; stderr := [] |}.

(** ** The heap builder of the specification *)

(** Section 4.2 of the specification, in its own words: the records are
    known by their index, the result is an offset per index and the heap. *)
Module Spec.

(** Step 1: the greatest name length. *)
Definition max_length (names : list str) : nat :=
  fold_right Nat.max 0%nat (map (@List.length ascii) names).

(** Step 2: the lengths from [m] down to 1. *)
Fixpoint lengths_down (m : nat) : list nat :=
  match m with
  | O => []
  | S k => m :: lengths_down k
  end.

(** Step 2a: the records of one length, in their existing order. *)
Definition of_length (names : list str) (l : nat) : list nat :=
  filter (fun i => Nat.eqb (List.length (nth i names [])) l)
         (seq 0 (List.length names)).

Definition processing_order (names : list str) : list nat :=
  flat_map (of_length names) (lengths_down (max_length names)).

(** An exact occurrence of the name at position [p] of the heap. *)
Definition matches_at (heap nm : str) (p : nat) : bool :=
  list_eqb (firstn (List.length nm) (skipn p heap)) nm.

(** The first matching position, if there is one. *)
Definition first_match (heap nm : str) : option nat :=
  List.find (matches_at heap nm) (seq 0 (S (List.length heap))).

Definition offsets := nat -> option nat.

Definition set_offset (o : offsets) (i p : nat) : offsets :=
  fun j => if Nat.eqb j i then Some p else o j.

(** Steps 2b and 2c for the record of index [i]. *)
Definition assign (names : list str) (st : offsets * str) (i : nat) : offsets * str :=
  let nm := nth i names [] in
  match first_match (snd st) nm with
  | Some p => (set_offset (fst st) i p, snd st)
  | None => (set_offset (fst st) i (List.length (snd st)), snd st ++ nm)
  end.

Definition heap_builder (names : list str) : offsets * str :=
  fold_left (assign names) (processing_order names) (fun _ => None, []).

End Spec.

(** The names of the records of a list, by index. *)
Definition names_of (cl : list codepoint) : list str :=
  map (fun c => match name c with Some n => n | None => [] end) cl.

(** ** The loops cut short, and a record set aside *)

(** The loops at the moment they come to the record of index [b], line 106
    about to run for it: the passes for the longer sizes are over, and so
    is the pass for its own size on the records before it.  The result is
    the record as it then is, and the heap as it then is. *)
Definition reach (cl : list codepoint) (maxsize : Z) (b : nat)
  : result (codepoint * str) :=
  c0 <- getitem cl b ;;
  r1 <- heap_loop (xrange3 maxsize (namesize c0) (-1)) cl [] ;;
  r2 <- heap_pass (namesize c0) (firstn b (fst r1)) (snd r1) ;;
  c <- getitem (fst r1) b ;;
  Ok (c, snd r2).

(** The result of a loop over a list with [c] put back at position [n]. *)
Definition put_back (n : nat) (c : codepoint) (r : result (list codepoint * str))
  : result (list codepoint * str) :=
  match r with
  | Ok (l, h) => Ok (firstn n l ++ c :: skipn n l, h)
  | Raise e => Raise e
  end.

(** ** Predicates of the statements *)

(** [sub] occurs in [s] at index [i]. *)
Definition occurs_at (s sub : str) (i : nat) : Prop :=
  exists pre post, s = pre ++ sub ++ post /\ List.length pre = i.

(** A record as the extractor leaves it: the name is there and [namesize]
    is its length. *)
Definition fresh (c : codepoint) : Prop :=
  exists n, name c = Some n /\ namesize c = len n.

(** [c] is the record [o] after the builder has dealt with it: the name of
    [o] occurs in the heap at the offset stored in [c]. *)
Definition placed (heap : str) (o c : codepoint) : Prop :=
  exists n k, name o = Some n /\ c = assigned o (Z.of_nat k) /\ occurs_at heap n k.

(** The loop invariant between passes: records longer than [size] are
    placed, the others are untouched. *)
Definition done_above (size : Z) (heap : str) (o c : codepoint) : Prop :=
  (size < namesize o -> placed heap o c) /\ (namesize o <= size -> c = o).

(** The greatest [namesize] of a list, 0 when it is empty. *)
Definition max_namesize (cl : list codepoint) : Z :=
  fold_right Z.max 0 (map namesize cl).

(** A record as the reading loop creates it. *)
Definition extracted_rec (c : codepoint) : Prop :=
  exists n, name c = Some n /\ namesize c = len n /\ 1 <= len n /\
            nameoffset c = None /\ lower n = n.

(** The invariant of the loop of line 74. *)
Definition extractor_inv (g : globals) : Prop :=
  Forall extracted_rec (charlist g) /\ maxnamesize g = max_namesize (charlist g).

(** How the records from index [k] on stand to the offsets of the
    specification while the lengths in [todo] are still to come: sizes and
    offsets agree, and the names of the lengths to come are still there. *)
Definition agrees (names : list str) (k : nat) (todo : list nat) (suf : list codepoint)
           (offs : Spec.offsets) : Prop :=
  forall j c, nth_error suf j = Some c ->
    namesize c = len (nth (k + j) names []) /\
    nameoffset c = option_map Z.of_nat (offs (k + j)%nat) /\
    (In (List.length (nth (k + j) names [])) todo -> name c = Some (nth (k + j) names [])).

(** A line with fewer than three fields. *)
Definition too_few_fields (line : str) : Prop :=
  (List.length (split ";" line) < 3)%nat.

(** A line whose codepoint field [int] rejects and which line 76 does not
    skip. *)
Definition bad_codepoint (line : str) : Prop :=
  exists f_uchar f_name flags rest,
    split ";" line = f_uchar :: f_name :: flags :: rest /\
    int16 f_uchar = Raise ValueError /\
    is_skipped flags <> Ok true.

(** ** Inputs and states the statements are tried on *)

Definition sample : str :=
  lit "0000;<control>;Cc;0" ++ nl ++
  lit "0041;LATIN CAPITAL LETTER A;Lu;0" ++ nl ++
  lit "0300;COMBINING GRAVE ACCENT;Mn;230" ++ nl ++
  lit "0100;<Block, First>;Lo;0" ++ nl ++
  lit "0103;<Block, Last>;Lo;0" ++ nl ++
  lit "00AD;ACCENT;Cf;0" ++ nl.

(** The globals the sample input leaves behind. *)
Definition sample_globals : globals :=
  match extract sample with
  | Ok g => g
  | Raise _ => initial
  end.

Definition line_Cc : str := lit "0009;<control>;Cc;0".

Definition line_Cf : str := lit "00AD;SOFT HYPHEN;Cf;0".

Definition line_first : str := lit "0100;<Block, First>;Lo;0".

Definition line_last : str := lit "0103;<Block, Last>;Lo;0".

(** The globals after the sample's lines up to the First line at 0x100. *)
Definition pending_globals : globals :=
  {| charlist := [codepoint_init 65 (lit "latin capital letter a") false];
     maxnamesize := 22; rstart := Some 256 |}.

Definition line_first0 : str := lit "0000;<Zero, First>;Lo;0".

Definition line_last3 : str := lit "0003;<Zero, Last>;Lo;0".

Definition one_record : globals :=
  {| charlist := [codepoint_init 65 (lit "a") false]; maxnamesize := 1; rstart := None |}.

Definition one_record_zero : globals :=
  {| charlist := [codepoint_init 65 (lit "a") false]; maxnamesize := 1; rstart := Some 0 |}.

Definition unpaired_last_input : str :=
  lit "0041;A;Lu;0" ++ nl ++ line_last ++ nl.

Definition short_line_input : str :=
  lit "0041;LATIN CAPITAL LETTER A;Lu;0" ++ nl ++ lit "0042;LATIN CAPITAL LETTER B" ++ nl.

Definition bad_hex_input : str :=
  lit "0041;LATIN CAPITAL LETTER A;Lu;0" ++ nl ++ lit "zz;LATIN CAPITAL LETTER B;Lu;0" ++ nl.

Definition skipped_bad_hex_input : str := lit "zz;<control>;Cc;0" ++ nl.

Definition rec_ab : codepoint := codepoint_init 65 (lit "ab") false.


Definition overlap_input : str :=
  lit "0041;ABX;Lu;0" ++ nl ++ lit "0042;YAB;Lu;0" ++ nl ++ lit "0043;AB;Lu;0" ++ nl.

Definition overlap_globals : globals :=
  {| charlist := [codepoint_init 65 (lit "abx") false;
                  codepoint_init 66 (lit "yab") false;
                  codepoint_init 67 (lit "ab") false];
     maxnamesize := 3; rstart := None |}.

(** ** Further predicates and data *)

(** A line that line 76 skips. *)
Definition skipped_line (line : str) : Prop :=
  exists f_uchar f_name flags rest,
    split ";" line = f_uchar :: f_name :: flags :: rest /\
    is_skipped flags = Ok true.

(** The progress notice of line 99. *)
Definition notice : str := lit "Parsing the codepoint list ..." ++ nl.

Definition line_reversed : str := lit "00FF;<Block, Last>;Lo;0".

Definition line_odd : str := lit "0104;<private use>;So;0".

(** A line that line 76 or line 80 cannot index: the flag field is empty or
    is the single letter C, or the line is not skipped, its codepoint
    parses and its name is empty. *)
Definition unindexable_line (line : str) : Prop :=
  exists f_uchar f_name flags rest,
    split ";" line = f_uchar :: f_name :: flags :: rest /\
    (flags = [] \/ flags = lit "C" \/
     (is_skipped flags = Ok false /\ (exists u, int16 f_uchar = Ok u) /\ f_name = [])).

(** The table of no record and the heap of no name, as printed. *)
Definition empty_table : str :=
  lit "/* This file is generated by mkcharlist.py. Do not edit directly. */" ++ nl
  ++ lit "#include " ++ dquote ++ lit "data.h" ++ dquote ++ nl
  ++ lit "charinfo const charlist[] = {" ++ nl
  ++ lit "};" ++ nl
  ++ lit "int const charlistsize = sizeof charlist / sizeof *charlist;" ++ nl
  ++ lit "char const *charnamebuffer = " ++ dquote ++ backslash ++ nl
  ++ dquote ++ lit ";" ++ nl.

Definition controls_input : str :=
  lit "0000;<control>;Cc;0" ++ nl ++ lit "0001;<control>;Cc;0" ++ nl.

(** A record as line 85 or line 90 makes it, from a name of at least one
    character with no capital letter in it. *)
Definition made (c : codepoint) : Prop :=
  exists u n comb, c = codepoint_init u n comb /\ 1 <= len n /\ lower n = n.

(** The pieces of the heap that lines 126-127 print, one per output line. *)
Definition heap_lines (nameheap : str) : list str :=
  map (fun i => slice nameheap i (i + 76)) (xrange3 0 (len nameheap) 76).

(** What lines 115-125 print: everything before the heap. *)
Definition table_text (cl : list codepoint) : str :=
  lit "/* This file is generated by mkcharlist.py. Do not edit directly. */" ++ nl
  ++ lit "#include " ++ dquote ++ lit "data.h" ++ dquote ++ nl
  ++ lit "charinfo const charlist[] = {" ++ nl
  ++ List.concat (map (fun c => entry c ++ lit "," ++ nl) cl)
  ++ lit "};" ++ nl
  ++ lit "int const charlistsize = sizeof charlist / sizeof *charlist;" ++ nl
  ++ lit "char const *charnamebuffer = " ++ dquote ++ backslash ++ nl.

(** The lengths of all names of a list, added up. *)
Definition sum_namesize (cl : list codepoint) : Z :=
  fold_right Z.add 0 (map namesize cl).

(** The lengths of the names still present in a list, added up. *)
Definition names_total (cl : list codepoint) : Z :=
  fold_right Z.add 0
    (map (fun c => match name c with Some n => len n | None => 0 end) cl).

(** Every position of the heap lies in the span of a record that has been
    given its offset. *)
Definition covered (heap : str) (cl : list codepoint) : Prop :=
  forall p, 0 <= p < len heap ->
    exists i c off,
      nth_error cl i = Some c /\ name c = None /\ nameoffset c = Some off /\
      off <= p < off + namesize c.

(** A character of a printed integer: a digit or the minus sign. *)
Definition numeral (c : ascii) : bool :=
  ((48 <=? code c) && (code c <=? 57) || (code c =? 45))%N.

(** A character that is neither a separator of an entry nor a newline. *)
Definition plain (c : ascii) : bool :=
  negb (Ascii.eqb c ",") && negb (Ascii.eqb c "}") && negb (Ascii.eqb c "010").

(** A character a name can hold: no semicolon, no newline, no capital
    letter. *)
Definition clean_char (c : ascii) : Prop :=
  c <> ";"%char /\ c <> "010"%char /\ lower_char c = c.

(** A line as file iteration yields it: at most one newline, at its end. *)
Definition line_shape (l : str) : Prop :=
  exists body, ~ In "010"%char body /\ (l = body \/ l = body ++ nl).

(** Every name still present in the list is made of such characters. *)
Definition clean_names (cl : list codepoint) : Prop :=
  Forall (fun c => forall n, name c = Some n -> Forall clean_char n) cl.

(** A range line whose codepoint is [sys.maxint]. *)
Definition line_past_long : str := lit "7FFFFFFFFFFFFFFF;<Block, Last>;Lo;0".

(** * Properties *)

(** ** The embedding on examples *)

Example split_ex :
  split ";" (lit "0041;LATIN CAPITAL LETTER A;Lu;0") =
  [lit "0041"; lit "LATIN CAPITAL LETTER A"; lit "Lu"; lit "0"].
Proof. reflexivity. Qed.

Example split_empty : split ";" [] = [[]].
Proof. reflexivity. Qed.

Example int16_ex : int16 (lit "1F600") = Ok 128512 /\ int16 (lit "zz") = Raise ValueError
  /\ int16 (lit " -0x1f ") = Ok (-31) /\ int16 (lit "0x") = Raise ValueError
  /\ int16 [] = Raise ValueError /\ int16 (lit "- 41") = Ok (-65)
  /\ int16 (lit "+ 0x41") = Ok 65 /\ int16 (lit "4 1") = Raise ValueError
  /\ int16 (lit "- -41") = Raise ValueError /\ int16 (lit "-") = Raise ValueError.
Proof. repeat split. Qed.

Example readlines_ex :
  readlines (lit "a;b
c") = [lit "a;b
"; lit "c"].
Proof. reflexivity. Qed.

Example find_ex :
  find (lit "abxyab") (lit "ab") = 0 /\ find (lit "abxyab") (lit "yab") = 3 /\
  find (lit "abxyab") (lit "q") = -1 /\ find (lit "abc") [] = 0 /\ find [] [] = 0.
Proof. repeat split. Qed.

Example xrange_ex :
  xrange 256 260 = [256; 257; 258; 259] /\ xrange3 3 0 (-1) = [3; 2; 1] /\
  xrange3 0 160 76 = [0; 76; 152] /\ xrange 5 5 = [] /\ xrange 5 2 = [] /\
  xrange3 0 152 76 = [0; 76].
Proof. repeat split. Qed.

Example repr_ex : repr 0 = lit "0" /\ repr 1234 = lit "1234" /\ repr (-5) = lit "-5".
Proof. repeat split. Qed.

Example slice_ex :
  slice (lit "abcdef") 2 4 = lit "cd" /\ slice (lit "abcdef") 4 80 = lit "ef" /\
  slice (lit "abcdef") (-2) 6 = lit "ef".
Proof. repeat split. Qed.

Example re_match_ex :
  re_match (lit "<cjk ideograph, first>") = Some (lit "cjk ideograph") /\
  re_match (lit "<CJK Ideograph, Last>") = Some (lit "CJK Ideograph") /\
  re_match (lit "<control>") = None /\
  re_match (lit "<, first>") = None /\
  re_match (lit "<a, b, first>") = None /\
  re_match (lit "<a, first> ") = None.
Proof. repeat split. Qed.

Example sample_output :
  string_of_list_ascii (stdout (fst (run sample))) =
  String.concat (String "010" EmptyString)
    ["/* This file is generated by mkcharlist.py. Do not edit directly. */";
     String.append "#include " (String "034" (String.append "data.h" (String "034" EmptyString)));
     "charinfo const charlist[] = {";
     "{0,22,65,0},"; "{22,22,768,1},"; "{44,5,256,0},"; "{44,5,257,0},";
     "{44,5,258,0},"; "{44,5,259,0},"; "{38,6,173,0},";
     "};";
     "int const charlistsize = sizeof charlist / sizeof *charlist;";
     String.append "char const *charnamebuffer = " (String "034" (String "092" EmptyString));
     String.append "latin capital letter acombining grave accentblock" (String "092" EmptyString);
     String "034" ";"; ""]%string.
Proof. vm_compute. reflexivity. Qed.

(** ** Occurrences of a name in the heap *)

Lemma len_app {A} (a b : list A) : len (a ++ b) = len a + len b.
Proof. unfold len. rewrite length_app. lia. Qed.

Lemma len_nonneg {A} (a : list A) : 0 <= len a.
Proof. unfold len. lia. Qed.

Lemma startswith_iff (s sub : str) :
  startswith s sub = true <-> exists post, s = sub ++ post.
Proof.
  revert s. induction sub as [|a sub IH]; intros s.
  - split; [intros _; now exists s | now destruct s].
  - destruct s as [|b s]; cbn [startswith].
    + split; [discriminate | intros [post H]; discriminate].
    + rewrite andb_true_iff, IH, Ascii.eqb_eq. split.
      * intros [-> [post ->]]. now exists post.
      * intros [post H]. injection H as -> ->. eauto.
Qed.

Lemma occurs_at_0 (s sub : str) : occurs_at s sub 0 <-> startswith s sub = true.
Proof.
  rewrite startswith_iff. split.
  - intros (pre & post & -> & Hl). destruct pre; [|discriminate]. now exists post.
  - intros [post ->]. now exists [], post.
Qed.

Lemma occurs_at_S (c : ascii) (s sub : str) (k : nat) :
  occurs_at (c :: s) sub (S k) <-> occurs_at s sub k.
Proof.
  split.
  - intros (pre & post & H & Hl). destruct pre as [|c' pre]; [discriminate|].
    injection H as -> ->. injection Hl as <-. now exists pre, post.
  - intros (pre & post & -> & <-). now exists (c :: pre), post.
Qed.

Lemma occurs_at_nil (sub : str) (k : nat) :
  occurs_at [] sub k -> startswith [] sub = true.
Proof.
  intros (pre & post & H & _). symmetry in H.
  apply app_eq_nil in H as [_ H]. apply app_eq_nil in H as [-> _]. reflexivity.
Qed.

(** [find] returns the leftmost occurrence, and -1 only when there is none. *)
Lemma find_from_spec (s sub : str) (i : Z) :
  (find_from i s sub = -1 /\ forall k, ~ occurs_at s sub k) \/
  (exists k, find_from i s sub = i + Z.of_nat k /\ occurs_at s sub k /\
             forall j, (j < k)%nat -> ~ occurs_at s sub j).
Proof.
  revert i. induction s as [|c s IH]; intros i.
  - cbn [find_from]. destruct (startswith [] sub) eqn:E.
    + right. exists 0%nat. rewrite occurs_at_0. repeat split; [lia|assumption|lia].
    + left. split; [reflexivity|]. intros k H. apply occurs_at_nil in H. congruence.
  - cbn [find_from]. destruct (startswith (c :: s) sub) eqn:E.
    + right. exists 0%nat. rewrite occurs_at_0. repeat split; [lia|assumption|lia].
    + destruct (IH (i + 1)) as [[H1 H2] | (k & H1 & H2 & H3)].
      * left. split; [assumption|]. intros [|k] H.
        -- apply occurs_at_0 in H. congruence.
        -- apply occurs_at_S in H. now apply (H2 k).
      * right. exists (S k). repeat split.
        -- lia.
        -- now apply occurs_at_S.
        -- intros [|j] Hj H.
           ++ apply occurs_at_0 in H. congruence.
           ++ apply occurs_at_S in H. apply (H3 j); [lia|assumption].
Qed.

Lemma find_found (s sub : str) :
  find s sub <> -1 ->
  exists k, find s sub = Z.of_nat k /\ occurs_at s sub k /\
            forall j, (j < k)%nat -> ~ occurs_at s sub j.
Proof.
  unfold find. intros H. destruct (find_from_spec s sub 0) as [[H1 _] | (k & H1 & H2)].
  - contradiction.
  - exists k. split; [lia | assumption].
Qed.

Lemma find_missing (s sub : str) :
  find s sub = -1 -> forall k, ~ occurs_at s sub k.
Proof.
  unfold find. intros H. destruct (find_from_spec s sub 0) as [[_ H2] | (k & H1 & _)].
  - assumption.
  - lia.
Qed.

Lemma occurs_at_bound (s sub : str) (k : nat) :
  occurs_at s sub k -> Z.of_nat k + len sub <= len s.
Proof.
  intros (pre & post & -> & <-). rewrite !len_app. unfold len. lia.
Qed.

Lemma occurs_at_app (s sub ext : str) (k : nat) :
  occurs_at s sub k -> occurs_at (s ++ ext) sub k.
Proof.
  intros (pre & post & -> & <-). exists pre, (post ++ ext).
  now rewrite <- !app_assoc.
Qed.

Lemma occurs_at_end (s sub : str) : occurs_at (s ++ sub) sub (List.length s).
Proof. exists s, []. now rewrite app_nil_r. Qed.

Lemma clamp_id (n i : Z) : 0 <= i <= n -> clamp n i = i.
Proof.
  intros H. unfold clamp.
  destruct (Z.ltb_spec i 0); [lia|].
  destruct (Z.ltb_spec i 0); [lia|].
  destruct (Z.ltb_spec n i); [lia|reflexivity].
Qed.

(** An occurrence is what the slice [s[k : k + len(sub)]] reads back. *)
Lemma occurs_at_slice (s sub : str) (k : nat) :
  occurs_at s sub k -> slice s (Z.of_nat k) (Z.of_nat k + len sub) = sub.
Proof.
  intros (pre & post & -> & <-). unfold slice.
  rewrite !clamp_id by (rewrite !len_app; unfold len; lia).
  unfold len. replace (Z.to_nat _) with (List.length sub) by lia.
  rewrite Nat2Z.id, skipn_app, skipn_all, Nat.sub_diag. cbn [skipn app].
  rewrite firstn_app, firstn_all, Nat.sub_diag. cbn [firstn]. now rewrite app_nil_r.
Qed.

(** ** The heap builder places every record *)

Lemma placed_app heap ext o c : placed heap o c -> placed (heap ++ ext) o c.
Proof.
  intros (n & k & H1 & H2 & H3). exists n, k. repeat split; trivial.
  now apply occurs_at_app.
Qed.

Lemma done_above_app size heap ext o c :
  done_above size heap o c -> done_above size (heap ++ ext) o c.
Proof. intros [H1 H2]. split; auto using placed_app. Qed.

Lemma done_above_namesize size heap o c :
  done_above size heap o c -> namesize c = namesize o.
Proof.
  intros [H1 H2]. destruct (Z.lt_ge_cases size (namesize o)) as [H|H].
  - destruct (H1 H) as (n & k & _ & -> & _). reflexivity.
  - now rewrite (H2 H).
Qed.

(** What lines 106-110 do, case by case. *)
Lemma place_spec (c : codepoint) (heap n : str) :
  name c = Some n ->
  (exists k, place c heap = Ok (assigned c (Z.of_nat k), heap) /\
             occurs_at heap n k /\ forall j, (j < k)%nat -> ~ occurs_at heap n j) \/
  (place c heap = Ok (assigned c (len heap), heap ++ n) /\
   forall k, ~ occurs_at heap n k).
Proof.
  intros Hn. unfold place. rewrite Hn. cbv zeta.
  destruct (Z.eqb_spec (find heap n) (-1)) as [E|E].
  - right. split; [reflexivity|]. now apply find_missing.
  - left. destruct (find_found _ _ E) as (k & -> & H1 & H2). now exists k.
Qed.

Lemma place_placed (c : codepoint) (heap : str) :
  fresh c ->
  exists c' ext, place c heap = Ok (c', heap ++ ext) /\ placed (heap ++ ext) c c'.
Proof.
  intros (n & Hn & _).
  destruct (place_spec c heap n Hn) as [(k & H1 & H2 & _) | [H1 _]].
  - exists (assigned c (Z.of_nat k)), []. rewrite app_nil_r. split; [assumption|].
    now exists n, k.
  - exists (assigned c (len heap)), n. split; [assumption|].
    exists n, (List.length heap). repeat split; trivial. apply occurs_at_end.
Qed.

Lemma heap_pass_inv (size : Z) (cl0 : list codepoint) :
  Forall fresh cl0 ->
  forall cl heap,
    Forall2 (done_above size heap) cl0 cl ->
    exists cl' ext,
      heap_pass size cl heap = Ok (cl', heap ++ ext) /\
      Forall2 (done_above (size - 1) (heap ++ ext)) cl0 cl'.
Proof.
  induction 1 as [|o cl0 Ho Hcl0 IH]; intros cl heap H2; inversion H2 as [|? c ? cl1 Hc Hrest]; subst.
  - exists [], []. rewrite app_nil_r. split; [reflexivity | constructor].
  - pose proof (done_above_namesize _ _ _ _ Hc) as Hsz.
    cbn [heap_pass]. destruct (Z.eqb_spec (namesize c) size) as [E|E]; cbn [negb].
    + assert (c = o) as -> by (apply Hc; lia).
      destruct (place_placed o heap Ho) as (c' & e1 & Hp & Hc').
      rewrite Hp. cbn [bind fst snd].
      destruct (IH cl1 (heap ++ e1)) as (cl' & ext & Hr & Hf).
      { eapply Forall2_impl; [|exact Hrest]. intros a b. apply done_above_app. }
      rewrite Hr. cbn [bind fst snd]. exists (c' :: cl'), (e1 ++ ext).
      rewrite app_assoc. split; [reflexivity|]. constructor; [|assumption].
      split; [intros _; now apply placed_app | lia].
    + destruct (IH cl1 heap Hrest) as (cl' & ext & Hr & Hf).
      rewrite Hr. cbn [bind fst snd]. exists (c :: cl'), ext.
      split; [reflexivity|]. constructor; [|assumption].
      destruct Hc as [H1 H2']. split.
      * intros Hlt. apply placed_app, H1. lia.
      * intros Hle. apply H2'. lia.
Qed.

(** The sizes of line 102, largest first, and any final stretch of them. *)
Lemma xrange3_desc_nil (m s : Z) : m <= s -> xrange3 m s (-1) = [].
Proof.
  intros H. unfold xrange3. cbn [Z.ltb Z.compare Z.opp].
  replace (Z.to_nat _) with 0%nat; [reflexivity|].
  rewrite Z.div_1_r. lia.
Qed.

Lemma xrange3_desc_step (m s : Z) :
  s < m -> xrange3 m s (-1) = m :: xrange3 (m - 1) s (-1).
Proof.
  intros H. unfold xrange3. cbn [Z.ltb Z.compare Z.opp].
  rewrite !Z.div_1_r.
  replace (Z.to_nat (m - s - -1 - 1)) with (S (Z.to_nat (m - 1 - s - -1 - 1))) by lia.
  cbn [seq map]. f_equal; [lia|].
  rewrite <- seq_shift, map_map. apply map_ext. intros k. lia.
Qed.

Lemma xrange3_desc_In (m s x : Z) : In x (xrange3 m s (-1)) -> s < x <= m.
Proof.
  unfold xrange3. cbn [Z.ltb Z.compare Z.opp]. rewrite Z.div_1_r.
  intros H. apply in_map_iff in H as (k & <- & Hk). apply in_seq in Hk. lia.
Qed.

Lemma xrange3_down_nil (m : Z) : m <= 0 -> xrange3 m 0 (-1) = [].
Proof. apply xrange3_desc_nil. Qed.

Lemma xrange3_down_step (m : Z) :
  0 < m -> xrange3 m 0 (-1) = m :: xrange3 (m - 1) 0 (-1).
Proof. apply xrange3_desc_step. Qed.

(** The passes for the sizes from [s + n] down to [s + 1]. *)
Lemma heap_loop_inv (n : nat) :
  forall s cl0 cl heap,
    Forall fresh cl0 ->
    Forall2 (done_above (s + Z.of_nat n) heap) cl0 cl ->
    exists cl' ext,
      heap_loop (xrange3 (s + Z.of_nat n) s (-1)) cl heap = Ok (cl', heap ++ ext) /\
      Forall2 (done_above s (heap ++ ext)) cl0 cl'.
Proof.
  induction n as [|n IH]; intros s cl0 cl heap Hf H2.
  - rewrite xrange3_desc_nil by lia. exists cl, []. rewrite app_nil_r.
    replace (s + Z.of_nat 0) with s in H2 by lia. split; [reflexivity|assumption].
  - rewrite xrange3_desc_step by lia. cbn [heap_loop].
    destruct (heap_pass_inv _ _ Hf _ _ H2) as (cl1 & e1 & Hp & H1).
    rewrite Hp. cbn [bind fst snd].
    replace (s + Z.of_nat (S n) - 1) with (s + Z.of_nat n) in * by lia.
    destruct (IH s cl0 cl1 (heap ++ e1) Hf H1) as (cl' & e2 & Hr & H3).
    exists cl', (e1 ++ e2). rewrite app_assoc. split; assumption.
Qed.

Lemma Forall2_diag {A} (R : A -> A -> Prop) (l : list A) :
  Forall (fun x => R x x) l -> Forall2 R l l.
Proof. induction 1; constructor; assumption. Qed.

(** Given records with names of length 1 to [maxsize], the builder ends
    normally and has placed every one of them. *)
Lemma build_nameheap_placed (cl : list codepoint) (maxsize : Z) :
  Forall fresh cl ->
  Forall (fun c => 1 <= namesize c <= maxsize) cl ->
  exists cl' heap,
    build_nameheap cl maxsize = Ok (cl', heap) /\ Forall2 (placed heap) cl cl'.
Proof.
  intros Hf Hs. unfold build_nameheap.
  destruct (Z.le_gt_cases maxsize 0) as [Hm|Hm].
  - destruct cl as [|c cl].
    + rewrite xrange3_down_nil by assumption. exists [], []. split; [reflexivity|constructor].
    + inversion Hs; subst. lia.
  - destruct (heap_loop_inv (Z.to_nat maxsize) 0 cl cl [] Hf) as (cl' & heap & H1 & H2).
    + apply Forall2_diag. rewrite Z.add_0_l, Z2Nat.id by lia.
      eapply Forall_impl; [|exact Hs]. intros c Hc. cbv beta in Hc.
      split; intros; [lia | reflexivity].
    + rewrite Z.add_0_l, Z2Nat.id in H1 by lia. cbn [app] in H1, H2.
      exists cl', heap. split; [assumption|].
      assert (Hall : Forall (fun c => 0 < namesize c) cl)
        by (eapply Forall_impl; [|exact Hs]; cbv beta; intros; lia).
      clear - H2 Hall. induction H2 as [|o c l l' [Hp _] _ IH]; constructor.
      * inversion Hall; subst. auto.
      * inversion Hall; subst. auto.
Qed.

(** ** What the extractor guarantees *)

Lemma lower_char_idem (c : ascii) : lower_char (lower_char c) = lower_char c.
Proof. destruct c as [[] [] [] [] [] [] [] []]; reflexivity. Qed.

Lemma lower_idem (s : str) : lower (lower s) = lower s.
Proof.
  unfold lower. rewrite map_map. apply map_ext. intros c. apply lower_char_idem.
Qed.

Lemma len_lower (s : str) : len (lower s) = len s.
Proof. unfold len, lower. now rewrite length_map. Qed.

Lemma getitem_0_len {A} (l : list A) (x : A) : getitem l 0 = Ok x -> 1 <= len l.
Proof. destruct l; [discriminate|]. unfold len. cbn [List.length]. lia. Qed.

Lemma re_match_nonempty (nm label : str) : re_match nm = Some label -> label <> [].
Proof.
  unfold re_match. destruct nm as [|c s']; [discriminate|].
  destruct (Ascii.eqb c "<"); [|discriminate].
  destruct (span_nocomma s') as [l rest]. destruct l; [discriminate|].
  destruct (_ || _); [|discriminate]. intros [= <-]. discriminate.
Qed.

Lemma getlast_app {A} (l : list A) (x : A) : getlast (l ++ [x]) = Ok x.
Proof. unfold getlast. now rewrite rev_unit. Qed.

Lemma getlast_ok {A} (l : list A) (x : A) :
  getlast l = Ok x -> exists l', l = l' ++ [x].
Proof.
  unfold getlast. destruct (rev l) as [|y r] eqn:E; [discriminate|].
  intros [= ->]. exists (rev r). rewrite <- (rev_involutive l), E. reflexivity.
Qed.

Lemma max_namesize_nonneg (cl : list codepoint) : 0 <= max_namesize cl.
Proof. induction cl; unfold max_namesize in *; cbn [map fold_right]; lia. Qed.

Lemma max_namesize_app (a b : list codepoint) :
  max_namesize (a ++ b) = Z.max (max_namesize a) (max_namesize b).
Proof.
  pose proof (max_namesize_nonneg b).
  induction a as [|c a IH]; unfold max_namesize in *; cbn [app map fold_right]; lia.
Qed.

Lemma namesize_le_max (cl : list codepoint) (c : codepoint) :
  In c cl -> namesize c <= max_namesize cl.
Proof.
  induction cl as [|d cl IH]; [contradiction|].
  unfold max_namesize in *. cbn [map fold_right]. intros [->|H]; [lia|].
  specialize (IH H). lia.
Qed.

Lemma max_namesize_same (cl : list codepoint) (s : Z) :
  cl <> [] -> 0 <= s -> Forall (fun c => namesize c = s) cl -> max_namesize cl = s.
Proof.
  intros Hne Hs H. induction H as [|c cl Hc Hcl IH]; [contradiction|].
  unfold max_namesize in *. cbn [map fold_right]. destruct cl as [|d cl].
  - cbn [map fold_right]. lia.
  - rewrite IH by discriminate. lia.
Qed.

Lemma codepoint_init_extracted (u : Z) (n : str) (comb : bool) :
  1 <= len n -> lower n = n -> extracted_rec (codepoint_init u n comb).
Proof. intros H1 H2. exists n. cbn. auto. Qed.

(** The call of line 84 yields the values of the range, or overflows. *)
Lemma xrange_call_ok (a b : Z) (us : list Z) :
  xrange_call a b = Ok us ->
  us = xrange a b /\ is_long a = true /\ is_long b = true /\ b - a <= maxint.
Proof.
  unfold xrange_call.
  destruct (is_long a); [|discriminate]. destruct (is_long b); [|discriminate].
  destruct (Z.leb_spec (b - a) maxint); [|discriminate].
  intros [= <-]. auto.
Qed.

Lemma is_long_iff (n : Z) : is_long n = true <-> - maxint - 1 <= n <= maxint.
Proof.
  unfold is_long. rewrite andb_true_iff, !Z.leb_le. tauto.
Qed.

(** Arithmetic within the bounds of a C long. *)
Ltac long_lia :=
  lazymatch goal with
  | |- is_long _ = true => apply is_long_iff
  | _ => idtac
  end;
  change maxint with 9223372036854775807 in *; lia.

Lemma xrange_call_fits (a b : Z) :
  is_long a = true -> is_long b = true -> b - a <= maxint ->
  xrange_call a b = Ok (xrange a b).
Proof.
  intros Ha Hb Hn. unfold xrange_call. rewrite Ha, Hb.
  apply Z.leb_le in Hn. now rewrite Hn.
Qed.

Lemma xrange_call_raises (a b : Z) (e : exn) :
  xrange_call a b = Raise e -> e = OverflowError.
Proof.
  unfold xrange_call.
  destruct (is_long a && is_long b && (b - a <=? maxint)); [discriminate|].
  now intros [= <-].
Qed.

(** The shape of an iteration that ends normally. *)
Lemma process_line_ok (g g' : globals) (line : str) :
  process_line g line = Ok g' ->
  (exists f_uchar f_name flags rest,
     split ";" line = f_uchar :: f_name :: flags :: rest /\
     is_skipped flags = Ok true /\ g' = g) \/
  (exists f_uchar f_name flags rest u ga,
     split ";" line = f_uchar :: f_name :: flags :: rest /\
     is_skipped flags = Ok false /\ int16 f_uchar = Ok u /\
     add_line g u (lower f_name) flags = Ok ga /\ track_max ga = Ok g').
Proof.
  unfold process_line.
  destruct (split ";" line) as [|f_uchar [|f_name [|flags rest]]]; try discriminate.
  destruct (is_skipped flags) as [[]|] eqn:Es; cbn [bind]; try discriminate.
  - intros [= <-]. left. now exists f_uchar, f_name, flags, rest.
  - destruct (int16 f_uchar) as [u|] eqn:Eu; cbn [bind]; try discriminate.
    destruct (add_line g u (lower f_name) flags) as [ga|] eqn:Ea; cbn [bind]; try discriminate.
    intros Ht. right. now exists f_uchar, f_name, flags, rest, u, ga.
Qed.

Lemma add_line_inv (g ga : globals) (u : Z) (nm flags : str) :
  extractor_inv g -> lower nm = nm ->
  add_line g u nm flags = Ok ga ->
  Forall extracted_rec (charlist ga) /\ maxnamesize ga = maxnamesize g /\
  forall c, getlast (charlist ga) = Ok c ->
            max_namesize (charlist ga) = Z.max (maxnamesize g) (namesize c).
Proof.
  intros [Hall Hmax] Hlow. unfold add_line.
  destruct (getitem nm 0) as [n0|] eqn:E0; cbn [bind]; [|discriminate].
  pose proof (getitem_0_len _ _ E0) as Hlen.
  assert (Hsame : forall c, getlast (charlist g) = Ok c ->
            max_namesize (charlist g) = Z.max (maxnamesize g) (namesize c)).
  { intros c Hc. apply getlast_ok in Hc as [l' Hc].
    assert (In c (charlist g)) by (rewrite Hc; apply in_or_app; right; now left).
    apply namesize_le_max in H. lia. }
  destruct (Ascii.eqb n0 "<").
  - destruct (rstart g) as [r|]; [|intros [= <-]; cbn; auto].
    destruct (truthy (Some r)); [|intros [= <-]; cbn; auto].
    destruct (re_match nm) as [g1|] eqn:Em; [|discriminate].
    destruct (xrange_call r (u + 1)) as [us|] eqn:Ex; cbn [bind]; [|discriminate].
    apply xrange_call_ok in Ex as (-> & _).
    intros [= <-]. cbn [charlist maxnamesize].
    pose proof (re_match_nonempty _ _ Em) as Hne.
    assert (Hl1 : 1 <= len (lower g1)).
    { rewrite len_lower. destruct g1; [contradiction|]. unfold len. cbn [List.length]. lia. }
    set (new := map _ (xrange r (u + 1))).
    assert (Hnew : Forall (fun c => extracted_rec c /\ namesize c = len (lower g1)) new).
    { apply Forall_forall. intros c Hc. apply in_map_iff in Hc as (x & <- & _).
      split; [|reflexivity]. apply codepoint_init_extracted; [assumption|apply lower_idem]. }
    split; [|split; [reflexivity|]].
    + apply Forall_app. split; [assumption|].
      eapply Forall_impl; [|exact Hnew]. now intros c [H _].
    + intros c Hc. rewrite max_namesize_app, <- Hmax.
      assert (Hcases : new = [] \/ exists new' x, new = new' ++ [x]).
      { destruct new as [|x0 new0]; [now left|]. right.
        destruct (@exists_last _ (x0 :: new0)) as (new' & x & Ex); [discriminate|].
        now exists new', x. }
      destruct Hcases as [Hnil | (new' & x & Ex)].
      * rewrite Hnil, app_nil_r in Hc. rewrite Hnil.
        pose proof (Hsame c Hc). pose proof (max_namesize_nonneg (charlist g)).
        change (max_namesize []) with 0. lia.
      * pose proof Hc as Hc'. rewrite Ex, app_assoc, getlast_app in Hc'. injection Hc' as ->.
        assert (Hc2 : namesize c = len (lower g1)).
        { rewrite Forall_forall in Hnew. apply Hnew. rewrite Ex. apply in_or_app. right. now left. }
        rewrite (max_namesize_same new (len (lower g1))).
        -- now rewrite Hc2.
        -- rewrite Ex. now destruct new'.
        -- lia.
        -- eapply Forall_impl; [|exact Hnew]. now intros d [_ H].
  - intros [= <-]. cbn [charlist maxnamesize]. split; [|split; [reflexivity|]].
    + apply Forall_app. split; [assumption|]. constructor; [|constructor].
      now apply codepoint_init_extracted.
    + intros c. rewrite getlast_app. intros [= <-].
      rewrite max_namesize_app, <- Hmax. unfold max_namesize at 1.
      cbn [map fold_right namesize codepoint_init]. lia.
Qed.

Lemma track_max_inv (ga g' : globals) (m : Z) :
  Forall extracted_rec (charlist ga) -> maxnamesize ga = m ->
  (forall c, getlast (charlist ga) = Ok c ->
             max_namesize (charlist ga) = Z.max m (namesize c)) ->
  track_max ga = Ok g' ->
  extractor_inv g' /\ charlist g' = charlist ga /\ rstart g' = rstart ga.
Proof.
  intros Hall Hm Hlast. unfold track_max.
  destruct (getlast (charlist ga)) as [c|] eqn:E; cbn [bind]; [|discriminate].
  specialize (Hlast c eq_refl).
  destruct (Z.ltb_spec (maxnamesize ga) (namesize c)); intros [= <-];
    unfold extractor_inv; cbn [charlist maxnamesize rstart]; repeat split; trivial; lia.
Qed.

Lemma process_line_inv (g g' : globals) (line : str) :
  extractor_inv g -> process_line g line = Ok g' -> extractor_inv g'.
Proof.
  intros Hg H. apply process_line_ok in H as
    [(? & ? & ? & ? & _ & _ & ->) | (fu & fn & fl & rest & u & ga & _ & _ & _ & Ha & Ht)];
    [assumption|].
  destruct (add_line_inv _ _ _ _ _ Hg (lower_idem fn) Ha) as (H1 & H2 & H3).
  now destruct (track_max_inv ga g' (maxnamesize g) H1 H2 H3 Ht).
Qed.

Lemma read_loop_inv (lines : list str) :
  forall g g', extractor_inv g -> read_loop lines g = Ok g' -> extractor_inv g'.
Proof.
  induction lines as [|line rest IH]; intros g g' Hg; cbn [read_loop].
  - now intros [= <-].
  - destruct (process_line g line) as [g1|] eqn:E; cbn [bind]; [|discriminate].
    apply IH. eapply process_line_inv; eassumption.
Qed.

Lemma extract_inv (input : str) (g : globals) :
  extract input = Ok g -> extractor_inv g.
Proof.
  apply read_loop_inv. split; [constructor | reflexivity].
Qed.

Lemma Forall2_nth_error_l {A B} (R : A -> B -> Prop) (l : list A) (l' : list B) :
  Forall2 R l l' ->
  forall i x, nth_error l i = Some x -> exists y, nth_error l' i = Some y /\ R x y.
Proof.
  induction 1 as [|a b l l' Hab _ IH]; intros [|i] x; cbn [nth_error]; try discriminate.
  - intros [= <-]. now exists b.
  - apply IH.
Qed.

Lemma extracted_fresh (g : globals) :
  extractor_inv g ->
  Forall fresh (charlist g) /\
  Forall (fun c => 1 <= namesize c <= maxnamesize g) (charlist g).
Proof.
  intros [Hall Hmax]. split.
  - eapply Forall_impl; [|exact Hall]. intros c (n & H1 & H2 & _). now exists n.
  - apply Forall_forall. intros c Hc. rewrite Hmax.
    pose proof (namesize_le_max _ _ Hc). rewrite Forall_forall in Hall.
    destruct (Hall c Hc) as (n & _ & H2 & H3 & _). lia.
Qed.

(** C1.  After the heap is built, every extracted record carries an offset
    that is a valid index into the heap: it is non-negative, offset plus
    name length stays within the heap, and the heap text of that length at
    that offset is the record's original (lowercased) name. *)
Theorem C1_offsets_read_back_names (input : str) (g : globals) :
  extract input = Ok g ->
  exists cl' heap,
    build_nameheap (charlist g) (maxnamesize g) = Ok (cl', heap) /\
    List.length cl' = List.length (charlist g) /\
    forall i r, nth_error (charlist g) i = Some r ->
      exists r' n off,
        nth_error cl' i = Some r' /\
        name r = Some n /\ lower n = n /\
        uchar r' = uchar r /\ combining r' = combining r /\
        namesize r' = len n /\
        nameoffset r' = Some off /\
        0 <= off /\ off + namesize r' <= len heap /\
        slice heap off (off + namesize r') = n.
Proof.
  intros He. pose proof (extract_inv _ _ He) as Hinv.
  destruct (extracted_fresh _ Hinv) as [Hf Hs].
  destruct (build_nameheap_placed _ _ Hf Hs) as (cl' & heap & Hb & H2).
  exists cl', heap. split; [assumption|]. split.
  - symmetry. eapply Forall2_length; eassumption.
  - intros i r Hr.
    destruct (Forall2_nth_error_l _ _ _ H2 i r Hr) as (r' & Hr' & n & k & Hn & -> & Hocc).
    destruct Hinv as [Hall _]. rewrite Forall_forall in Hall.
    destruct (Hall r (nth_error_In _ _ Hr)) as (n' & Hn' & Hsz & _ & _ & Hlow).
    rewrite Hn in Hn'. injection Hn' as <-.
    exists (assigned r (Z.of_nat k)), n, (Z.of_nat k).
    cbn [assigned uchar combining namesize nameoffset]. rewrite Hsz.
    repeat split; trivial.
    + lia.
    + now apply occurs_at_bound.
    + now apply occurs_at_slice.
Qed.

Lemma C1_offsets_read_back_names_witness :
  exists cl' heap,
    build_nameheap (charlist sample_globals) (maxnamesize sample_globals) = Ok (cl', heap) /\
    List.length cl' = List.length (charlist sample_globals) /\
    forall i r, nth_error (charlist sample_globals) i = Some r ->
      exists r' n off,
        nth_error cl' i = Some r' /\
        name r = Some n /\ lower n = n /\
        uchar r' = uchar r /\ combining r' = combining r /\
        namesize r' = len n /\
        nameoffset r' = Some off /\
        0 <= off /\ off + namesize r' <= len heap /\
        slice heap off (off + namesize r') = n.
Proof.
  apply (C1_offsets_read_back_names sample sample_globals). vm_compute. reflexivity.
Defined.

(** ** One line at a time *)

Lemma xrange_seq (a b : Z) :
  xrange a b = map (fun k => a + Z.of_nat k) (seq 0 (Z.to_nat (b - a))).
Proof.
  unfold xrange, xrange3. cbn [Z.ltb Z.compare]. rewrite Z.div_1_r.
  replace (b - a + 1 - 1) with (b - a) by lia.
  apply map_ext. intros k. lia.
Qed.

Lemma xrange_length (a b : Z) : a <= b -> len (xrange a b) = b - a.
Proof. intros H. unfold len. rewrite xrange_seq, length_map, length_seq. lia. Qed.

Lemma xrange_nth (a b : Z) (k : nat) :
  Z.of_nat k < b - a -> nth_error (xrange a b) k = Some (a + Z.of_nat k).
Proof.
  intros H. rewrite xrange_seq, nth_error_map, nth_error_seq.
  destruct (Nat.ltb_spec k (Z.to_nat (b - a))); [reflexivity | lia].
Qed.

Lemma track_max_spec (ga : globals) (l : list codepoint) (c : codepoint) :
  charlist ga = l ++ [c] ->
  exists g', track_max ga = Ok g' /\ charlist g' = charlist ga /\
             rstart g' = rstart ga /\
             maxnamesize g' = Z.max (maxnamesize ga) (namesize c).
Proof.
  intros H. unfold track_max. rewrite H, getlast_app. cbn [bind].
  destruct (Z.ltb_spec (maxnamesize ga) (namesize c)); eexists; split; try reflexivity;
    cbn [charlist rstart maxnamesize]; rewrite ?H; repeat split; lia.
Qed.

(** Once lines 91-92 have run, running them again changes nothing,
    whatever [rstart] holds. *)
Lemma track_max_again (ga g1 : globals) (r : option Z) :
  track_max ga = Ok g1 ->
  exists g2,
    track_max {| charlist := charlist g1; maxnamesize := maxnamesize g1; rstart := r |}
      = Ok g2 /\
    charlist g2 = charlist g1 /\ maxnamesize g2 = maxnamesize g1 /\ rstart g2 = r.
Proof.
  unfold track_max.
  destruct (getlast (charlist ga)) as [c|] eqn:E; cbn [bind]; [|discriminate].
  destruct (Z.ltb_spec (maxnamesize ga) (namesize c)); intros [= <-];
    cbn [charlist maxnamesize rstart]; rewrite E; cbn [bind].
  - rewrite Z.ltb_irrefl. eexists. split; [reflexivity|]. cbn. auto.
  - destruct (Z.ltb_spec (maxnamesize ga) (namesize c)); [lia|].
    eexists. split; [reflexivity|]. cbn. auto.
Qed.

Lemma process_line_unskipped (g : globals) (line f_uchar f_name flags : str)
      (rest : list str) (u : Z) :
  split ";" line = f_uchar :: f_name :: flags :: rest ->
  is_skipped flags = Ok false ->
  int16 f_uchar = Ok u ->
  process_line g line = (ga <- add_line g u (lower f_name) flags ;; track_max ga).
Proof.
  intros Hs Hk Hu. unfold process_line. rewrite Hs, Hk. cbn [bind]. now rewrite Hu.
Qed.

Lemma is_skipped_Cf (flags : str) :
  getitem flags 0 = Ok "C"%char -> getitem flags 1 = Ok "f"%char ->
  is_skipped flags = Ok false.
Proof. intros H0 H1. unfold is_skipped. now rewrite H0, H1. Qed.

(** C7.  A line whose flag field starts with C followed by anything but f
    is skipped: it leaves no record and changes nothing.  A line whose flag
    field starts with Cf is kept: when its name is an ordinary one it adds
    exactly one record.  In particular Cc is dropped and Cf is kept. *)
Theorem C7_control_lines_dropped_format_kept
        (g : globals) (line f_uchar f_name flags : str) (rest : list str) :
  split ";" line = f_uchar :: f_name :: flags :: rest ->
  getitem flags 0 = Ok "C"%char ->
  (forall c1, getitem flags 1 = Ok c1 -> c1 <> "f"%char ->
     is_skipped flags = Ok true /\ process_line g line = Ok g) /\
  (getitem flags 1 = Ok "f"%char ->
     is_skipped flags = Ok false /\
     forall u n0, int16 f_uchar = Ok u ->
       getitem (lower f_name) 0 = Ok n0 -> n0 <> "<"%char ->
       exists g', process_line g line = Ok g' /\
         charlist g' = charlist g ++ [codepoint_init u (lower f_name) false] /\
         rstart g' = rstart g) /\
  is_skipped (lit "Cc") = Ok true /\ is_skipped (lit "Cf") = Ok false.
Proof.
  intros Hs H0. split; [|split; [|split; reflexivity]].
  - intros c1 H1 Hc.
    assert (Hk : is_skipped flags = Ok true).
    { unfold is_skipped. rewrite H0, H1. cbn [bind].
      destruct (Ascii.eqb_spec c1 "f"); [contradiction | reflexivity]. }
    split; [assumption|]. unfold process_line. now rewrite Hs, Hk.
  - intros H1. pose proof (is_skipped_Cf _ H0 H1) as Hk. split; [assumption|].
    intros u n0 Hu Hn0 Hne.
    rewrite (process_line_unskipped _ _ _ _ _ _ _ Hs Hk Hu).
    unfold add_line. rewrite Hn0. cbn [bind].
    destruct (Ascii.eqb_spec n0 "<"); [contradiction|].
    assert (Hmn : list_eqb flags (lit "Mn") = false).
    { unfold list_eqb. destruct (list_eq_dec ascii_dec flags (lit "Mn")) as [->|]; [discriminate | reflexivity]. }
    rewrite Hmn.
    edestruct track_max_spec as (g' & Ht & Hc & Hr & _); [|exists g'; split; [exact Ht|]].
    + cbn [charlist]. reflexivity.
    + rewrite Hc, Hr. split; reflexivity.
Qed.

Lemma C7_control_lines_dropped_format_kept_witness :
  process_line sample_globals line_Cc = Ok sample_globals /\
  exists g', process_line sample_globals line_Cf = Ok g' /\
    charlist g' = charlist sample_globals ++ [codepoint_init 173 (lit "soft hyphen") false] /\
    rstart g' = rstart sample_globals.
Proof.
  split.
  - destruct (C7_control_lines_dropped_format_kept sample_globals line_Cc
                (lit "0009") (lit "<control>") (lit "Cc") [lit "0"] eq_refl eq_refl)
      as (Hdrop & _).
    apply (Hdrop "c"%char); [reflexivity | discriminate].
  - destruct (C7_control_lines_dropped_format_kept sample_globals line_Cf
                (lit "00AD") (lit "SOFT HYPHEN") (lit "Cf") [lit "0"] eq_refl eq_refl)
      as (_ & Hkeep & _).
    destruct (Hkeep eq_refl) as [_ Hrec].
    apply (Hrec 173 "s"%char); [reflexivity | reflexivity | discriminate].
Defined.

Lemma track_max_fields (ga g' : globals) :
  track_max ga = Ok g' -> charlist g' = charlist ga /\ rstart g' = rstart ga.
Proof.
  unfold track_max. destruct (getlast (charlist ga)) as [c|]; cbn [bind]; [|discriminate].
  destruct (_ <? _); intros [= <-]; split; reflexivity.
Qed.

Lemma nonempty_last {A} (l : list A) : l <> [] -> exists l' x, l = l' ++ [x].
Proof.
  intros H. destruct (exists_last H) as (l' & x & E). now exists l', x.
Qed.

(** A line whose name starts with < while no range is pending (in the
    sense of the test of line 82) only records its codepoint. *)
Lemma add_line_opens (g : globals) (u : Z) (nm flags : str) :
  getitem nm 0 = Ok "<"%char -> truthy (rstart g) = false ->
  add_line g u nm flags =
  Ok {| charlist := charlist g; maxnamesize := maxnamesize g; rstart := Some u |}.
Proof.
  intros H0 Ht. unfold add_line. rewrite H0. cbn [bind Ascii.eqb Bool.eqb].
  destruct (rstart g) as [r|]; [|reflexivity]. now rewrite Ht.
Qed.

(** Range expansion (lines 83-86): with a pending start [r] that the test
    of line 82 accepts, a line matching the range pattern at codepoint [u]
    appends one record per codepoint of [r..u], in ascending order, all
    named by the lowercased label and none combining, and clears the
    pending start; provided xrange takes the range ([r] and [u + 1] are C
    longs and so is the number of codepoints). *)
Lemma range_line_expands (g : globals) (line f_uchar f_name flags : str)
      (rest : list str) (r u : Z) (label : str) :
  split ";" line = f_uchar :: f_name :: flags :: rest ->
  is_skipped flags = Ok false ->
  int16 f_uchar = Ok u ->
  re_match (lower f_name) = Some label ->
  rstart g = Some r -> r <> 0 -> r <= u ->
  - maxint - 1 <= r -> u < maxint -> u - r < maxint ->
  exists g',
    process_line g line = Ok g' /\
    charlist g' =
      charlist g ++ map (fun v => codepoint_init v (lower label) false) (xrange r (u + 1)) /\
    len (xrange r (u + 1)) = u - r + 1 /\
    (forall k, Z.of_nat k <= u - r -> nth_error (xrange r (u + 1)) k = Some (r + Z.of_nat k)) /\
    rstart g' = None.
Proof.
  intros Hs Hk Hu Hm Hr Hr0 Hle Hlo Hhi Hn.
  rewrite (process_line_unskipped _ _ _ _ _ _ _ Hs Hk Hu).
  assert (H0 : getitem (lower f_name) 0 = Ok "<"%char).
  { unfold re_match in Hm. destruct (lower f_name) as [|c s']; [discriminate|].
    destruct (Ascii.eqb_spec c "<"); [now subst | discriminate]. }
  unfold add_line. rewrite H0. cbn [bind Ascii.eqb Bool.eqb]. rewrite Hr, Hm.
  assert (Ht : truthy (Some r) = true).
  { cbn [truthy]. destruct (Z.eqb_spec r 0); [contradiction | reflexivity]. }
  rewrite Ht.
  rewrite xrange_call_fits by long_lia. cbn [bind].
  assert (Hlen : len (xrange r (u + 1)) = u - r + 1) by (rewrite xrange_length; lia).
  destruct (nonempty_last (xrange r (u + 1))) as (xs & x & Ex).
  { intros E. rewrite E in Hlen. unfold len in Hlen. cbn in Hlen. lia. }
  edestruct track_max_spec as (g' & Ht' & Hc & Hr' & _); [|exists g'; split; [exact Ht'|]].
  - cbn [charlist]. rewrite Ex, map_app, app_assoc. reflexivity.
  - rewrite Hc, Hr'. cbn [charlist rstart]. repeat split; trivial.
    intros k Hk'. apply xrange_nth. lia.
Qed.

Example range_line_expands_ex :
  process_line {| charlist := charlist pending_globals; maxnamesize := 22; rstart := None |}
    line_first = Ok pending_globals /\
  process_line pending_globals line_last =
  Ok {| charlist := charlist pending_globals ++
                    map (fun v => codepoint_init v (lit "block") false) [256; 257; 258; 259];
        maxnamesize := 22; rstart := None |}.
Proof. split; reflexivity. Qed.

(** C10.  A range start at codepoint 0 does not count as pending: after a
    First line at codepoint 0 the stored start is 0, which the test of
    line 82 takes for "no range"; the Last line that follows emits no
    record and its own codepoint becomes the pending start. *)
Theorem C10_range_start_zero_is_not_pending
        (g g1 : globals) (first last fu fn fl lu ln ll : str) (rest1 rest2 : list str)
        (e : Z) :
  split ";" first = fu :: fn :: fl :: rest1 ->
  is_skipped fl = Ok false -> int16 fu = Ok 0 ->
  getitem (lower fn) 0 = Ok "<"%char ->
  truthy (rstart g) = false ->
  process_line g first = Ok g1 ->
  split ";" last = lu :: ln :: ll :: rest2 ->
  is_skipped ll = Ok false -> int16 lu = Ok e ->
  getitem (lower ln) 0 = Ok "<"%char ->
  rstart g1 = Some 0 /\ charlist g1 = charlist g /\ truthy (rstart g1) = false /\
  exists g2, process_line g1 last = Ok g2 /\
             charlist g2 = charlist g1 /\ rstart g2 = Some e.
Proof.
  intros Hs1 Hk1 Hu1 Hn1 Ht Hp Hs2 Hk2 Hu2 Hn2.
  rewrite (process_line_unskipped _ _ _ _ _ _ _ Hs1 Hk1 Hu1) in Hp.
  rewrite (add_line_opens _ _ _ _ Hn1 Ht) in Hp. cbn [bind] in Hp.
  destruct (track_max_fields _ _ Hp) as [Hc Hr]. cbn [charlist rstart] in Hc, Hr.
  assert (Ht1 : truthy (rstart g1) = false) by now rewrite Hr.
  repeat split; trivial.
  rewrite (process_line_unskipped _ _ _ _ _ _ _ Hs2 Hk2 Hu2).
  rewrite (add_line_opens _ _ _ _ Hn2 Ht1). cbn [bind].
  destruct (track_max_again _ _ (Some e) Hp) as (g2 & H2 & Hc2 & _ & Hr2).
  exists g2. auto.
Qed.

Lemma C10_range_start_zero_is_not_pending_witness :
  rstart one_record_zero = Some 0 /\ charlist one_record_zero = charlist one_record /\
  truthy (rstart one_record_zero) = false /\
  exists g2, process_line one_record_zero line_last3 = Ok g2 /\
             charlist g2 = charlist one_record_zero /\ rstart g2 = Some 3.
Proof.
  apply (C10_range_start_zero_is_not_pending one_record one_record_zero
           line_first0 line_last3
           (lit "0000") (lit "<Zero, First>") (lit "Lo")
           (lit "0003") (lit "<Zero, Last>") (lit "Lo") [lit "0"] [lit "0"] 3);
    reflexivity.
Defined.

(** C8, at a range that starts at codepoint 0 and at a range that opens
    the input.  After one ordinary record, a First line at 0 and a Last
    line at 3 leave the list at that one record, with 3 pending, where the
    range 0..3 should have added four records; and an input that begins
    with the First line at 0x100 stops with an IndexError at line 91,
    before its Last line is read. *)
Theorem C8_range_from_zero_or_at_start_not_expanded :
  extract (lit "0041;A;Lu;0" ++ nl ++ line_first0 ++ nl ++ line_last3 ++ nl) =
    Ok {| charlist := [codepoint_init 65 (lit "a") false];
          maxnamesize := 1; rstart := Some 3 |} /\
  extract (line_first ++ nl ++ line_last ++ nl) = Raise IndexError /\
  extract (lit "0041;A;Lu;0" ++ nl ++ line_first ++ nl ++ line_last ++ nl) =
    Ok {| charlist := codepoint_init 65 (lit "a") false ::
                      map (fun v => codepoint_init v (lit "block") false) [256; 257; 258; 259];
          maxnamesize := 5; rstart := None |}.
Proof. repeat split. Qed.

(** ** Lines the reading loop does not survive, and lines it does *)

(** C5, as the script has it.  The pattern of line 81 does not tell Last
    from First, and line 82 only asks whether a start is pending.  So a
    Last line (any line whose name starts with <) met while no range is
    pending is not fatal: once a record has been extracted, it adds no
    record and its codepoint becomes the pending start. *)
Theorem C5_unpaired_last_opens_a_range
        (g : globals) (line f_uchar f_name flags : str) (rest : list str) (u : Z) :
  split ";" line = f_uchar :: f_name :: flags :: rest ->
  is_skipped flags = Ok false ->
  int16 f_uchar = Ok u ->
  getitem (lower f_name) 0 = Ok "<"%char ->
  truthy (rstart g) = false ->
  charlist g <> [] ->
  exists g', process_line g line = Ok g' /\
             charlist g' = charlist g /\ rstart g' = Some u.
Proof.
  intros Hs Hk Hu Hn Ht Hne.
  rewrite (process_line_unskipped _ _ _ _ _ _ _ Hs Hk Hu).
  rewrite (add_line_opens _ _ _ _ Hn Ht). cbn [bind].
  destruct (nonempty_last _ Hne) as (l & c & E).
  edestruct track_max_spec as (g' & Ht' & Hc & Hr & _); [|exists g'; split; [exact Ht'|]].
  - cbn [charlist]. exact E.
  - rewrite Hc, Hr. split; reflexivity.
Qed.

Lemma C5_unpaired_last_opens_a_range_witness :
  exists g', process_line one_record line_last = Ok g' /\
             charlist g' = charlist one_record /\ rstart g' = Some 259.
Proof.
  apply (C5_unpaired_last_opens_a_range one_record line_last
           (lit "0103") (lit "<Block, Last>") (lit "Lo") [lit "0"] 259);
    try reflexivity.
  discriminate.
Defined.

(** An input whose only range line is a Last line, with no First line
    before it, runs to its normal end and prints the table. *)
Lemma C5_counterexample :
  readlines unpaired_last_input = [lit "0041;A;Lu;0" ++ nl; line_last ++ nl] /\
  re_match (lower (lit "<Block, Last>")) = Some (lit "block") /\
  extract unpaired_last_input = Ok {| charlist := charlist one_record;
                                     maxnamesize := 1; rstart := Some 259 |} /\
  snd (run unpaired_last_input) = None /\
  stdout (fst (run unpaired_last_input)) =
    output [assigned (codepoint_init 65 (lit "a") false) 0] (lit "a").
Proof. repeat split. Qed.

Lemma malformed_line_raises (line : str) :
  too_few_fields line \/ bad_codepoint line ->
  forall g, exists e, process_line g line = Raise e.
Proof.
  intros [H | (fu & fn & fl & rest & Hs & Hu & Hk)] g; unfold process_line.
  - unfold too_few_fields in H.
    destruct (split ";" line) as [|a [|b [|c l]]]; try (now exists ValueError).
    cbn [List.length] in H. lia.
  - rewrite Hs. destruct (is_skipped fl) as [[]|e]; cbn [bind].
    + contradiction.
    + rewrite Hu. now exists ValueError.
    + now exists e.
Qed.

Lemma read_loop_raises (lines : list str) (line : str) :
  In line lines ->
  (forall g, exists e, process_line g line = Raise e) ->
  forall g, exists e, read_loop lines g = Raise e.
Proof.
  intros Hin Hbad. induction lines as [|l rest IH]; [contradiction|].
  intros g. cbn [read_loop]. destruct Hin as [-> | Hin].
  - destruct (Hbad g) as [e ->]. now exists e.
  - destruct (process_line g l) as [g1|e]; cbn [bind]; [now apply IH | now exists e].
Qed.

(** C6, as the script has it.  Line 76 runs before line 78, so a skipped
    control line is never parsed.  An input with a line of fewer than three
    fields, or with a line that is not skipped and whose codepoint field is
    not hexadecimal, ends in an exception and prints nothing. *)
Theorem C6_malformed_line_aborts (input line : str) :
  In line (readlines input) ->
  too_few_fields line \/ bad_codepoint line ->
  exists e, snd (run input) = Some e /\ stdout (fst (run input)) = [].
Proof.
  intros Hin Hbad. unfold run, main. cbn [stdin]. unfold extract.
  destruct (read_loop_raises _ _ Hin (malformed_line_raises _ Hbad) initial) as [e ->].
  exists e. split; reflexivity.
Qed.

Lemma C6_malformed_line_aborts_witness :
  (exists e, snd (run short_line_input) = Some e /\ stdout (fst (run short_line_input)) = []) /\
  (exists e, snd (run bad_hex_input) = Some e /\ stdout (fst (run bad_hex_input)) = []).
Proof.
  split.
  - apply (C6_malformed_line_aborts short_line_input (lit "0042;LATIN CAPITAL LETTER B" ++ nl)).
    + right. left. reflexivity.
    + left. unfold too_few_fields. vm_compute. lia.
  - apply (C6_malformed_line_aborts bad_hex_input (lit "zz;LATIN CAPITAL LETTER B;Lu;0" ++ nl)).
    + right. left. reflexivity.
    + right. exists (lit "zz"), (lit "LATIN CAPITAL LETTER B"), (lit "Lu"), [lit "0" ++ nl].
      repeat split; discriminate.
Defined.

(** A control line with a codepoint field that is not hexadecimal is
    skipped before the field is parsed: the run ends normally and prints a
    complete (here empty) table. *)
Lemma C6_counterexample :
  readlines skipped_bad_hex_input = [lit "zz;<control>;Cc;0" ++ nl] /\
  split ";" (lit "zz;<control>;Cc;0" ++ nl) =
    [lit "zz"; lit "<control>"; lit "Cc"; lit "0" ++ nl] /\
  int16 (lit "zz") = Raise ValueError /\
  snd (run skipped_bad_hex_input) = None /\
  stdout (fst (run skipped_bad_hex_input)) = output [] [].
Proof. repeat split. Qed.

(** ** Records set aside, and the empty name *)

Lemma heap_pass_length (size : Z) (cl : list codepoint) :
  forall heap cl' heap',
    heap_pass size cl heap = Ok (cl', heap') -> List.length cl' = List.length cl.
Proof.
  induction cl as [|c cl IH]; intros heap cl' heap'; cbn [heap_pass].
  - now intros [= <- _].
  - destruct (negb (namesize c =? size)).
    + destruct (heap_pass size cl heap) as [[l h]|] eqn:E; cbn [bind fst snd]; [|discriminate].
      intros [= <- _]. cbn [List.length]. f_equal. eapply IH; eassumption.
    + destruct (place c heap) as [[c1 h1]|]; cbn [bind fst snd]; [|discriminate].
      destruct (heap_pass size cl h1) as [[l h]|] eqn:E; cbn [bind fst snd]; [|discriminate].
      intros [= <- _]. cbn [List.length]. f_equal. eapply IH; eassumption.
Qed.

(** A pass for another size treats the list as if [c] were not in it. *)
Lemma heap_pass_skip (size : Z) (c : codepoint) (post : list codepoint) :
  namesize c <> size ->
  forall pre heap,
    heap_pass size (pre ++ c :: post) heap =
    put_back (List.length pre) c (heap_pass size (pre ++ post) heap).
Proof.
  intros Hc. induction pre as [|d pre IH]; intros heap; cbn [app heap_pass List.length].
  - destruct (Z.eqb_spec (namesize c) size); [contradiction|]. cbn [negb].
    destruct (heap_pass size post heap) as [[l h]|]; reflexivity.
  - destruct (negb (namesize d =? size)).
    + rewrite IH. destruct (heap_pass size (pre ++ post) heap) as [[l h]|]; reflexivity.
    + destruct (place d heap) as [[d1 h1]|]; cbn [bind fst snd]; [|reflexivity].
      rewrite IH. destruct (heap_pass size (pre ++ post) h1) as [[l h]|]; reflexivity.
Qed.

Lemma heap_loop_skip (sizes : list Z) (c : codepoint) :
  Forall (fun size => namesize c <> size) sizes ->
  forall pre post heap,
    heap_loop sizes (pre ++ c :: post) heap =
    put_back (List.length pre) c (heap_loop sizes (pre ++ post) heap).
Proof.
  induction 1 as [|size sizes Hs _ IH]; intros pre post heap; cbn [heap_loop put_back].
  - now rewrite firstn_app, firstn_all, Nat.sub_diag, skipn_app, skipn_all, Nat.sub_diag,
      app_nil_r.
  - rewrite (heap_pass_skip size c post Hs).
    destruct (heap_pass size (pre ++ post) heap) as [[l h]|] eqn:E; cbn [put_back bind fst snd];
      [|reflexivity].
    apply heap_pass_length in E. rewrite length_app in E.
    rewrite IH, firstn_skipn, length_firstn. f_equal. lia.
Qed.



(** ** The loops compute what the specification's builder computes *)

Example processing_order_ex :
  Spec.processing_order (names_of (charlist sample_globals)) = [0; 1; 6; 2; 3; 4; 5]%nat /\
  snd (Spec.heap_builder (names_of (charlist sample_globals))) =
    lit "latin capital letter acombining grave accentblock" /\
  map (fst (Spec.heap_builder (names_of (charlist sample_globals)))) (seq 0 8) =
    [Some 0; Some 22; Some 44; Some 44; Some 44; Some 44; Some 38; None]%nat.
Proof. repeat split. Qed.

Lemma occurs_at_le (s sub : str) (k : nat) : occurs_at s sub k -> (k <= List.length s)%nat.
Proof. intros (pre & post & -> & <-). rewrite length_app. lia. Qed.

Lemma list_eqb_eq (a b : str) : list_eqb a b = true <-> a = b.
Proof.
  unfold list_eqb. destruct (list_eq_dec ascii_dec a b); split; auto; discriminate.
Qed.

Lemma matches_at_iff (heap nm : str) (p : nat) :
  (p <= List.length heap)%nat ->
  Spec.matches_at heap nm p = true <-> occurs_at heap nm p.
Proof.
  intros Hp. unfold Spec.matches_at. rewrite list_eqb_eq. split.
  - intros H. exists (firstn p heap), (skipn (List.length nm) (skipn p heap)). split.
    + rewrite <- H at 1. now rewrite !firstn_skipn.
    + rewrite length_firstn. lia.
  - intros (pre & post & -> & <-).
    rewrite skipn_app, skipn_all, Nat.sub_diag. cbn [skipn app].
    now rewrite firstn_app, firstn_all, Nat.sub_diag, app_nil_r.
Qed.

Lemma find_seq_first (f : nat -> bool) (n : nat) :
  forall a,
    match List.find f (seq a n) with
    | Some p => f p = true /\ (a <= p < a + n)%nat /\
                forall j, (a <= j < p)%nat -> f j = false
    | None => forall j, (a <= j < a + n)%nat -> f j = false
    end.
Proof.
  induction n as [|n IH]; intros a; cbn [seq List.find].
  - intros j Hj. lia.
  - destruct (f a) eqn:E.
    + repeat split; [assumption|lia|lia|intros j Hj; lia].
    + specialize (IH (S a)). destruct (List.find f (seq (S a) n)) as [p|].
      * destruct IH as (H1 & H2 & H3). repeat split; [assumption|lia|lia|].
        intros j Hj. destruct (Nat.eq_dec j a) as [->|]; [assumption|]. apply H3. lia.
      * intros j Hj. destruct (Nat.eq_dec j a) as [->|]; [assumption|]. apply IH. lia.
Qed.

(** The first match of the specification is the leftmost occurrence. *)
Lemma first_match_leftmost (heap nm : str) (k : nat) :
  occurs_at heap nm k -> (forall j, (j < k)%nat -> ~ occurs_at heap nm j) ->
  Spec.first_match heap nm = Some k.
Proof.
  intros Hk Hleft. unfold Spec.first_match.
  pose proof (find_seq_first (Spec.matches_at heap nm) (S (List.length heap)) 0) as H.
  pose proof (occurs_at_le _ _ _ Hk) as Hle.
  destruct (List.find _ _) as [p|].
  - destruct H as (H1 & H2 & H3). f_equal.
    apply matches_at_iff in H1; [|lia].
    destruct (Nat.lt_trichotomy p k) as [Hlt | [-> | Hgt]]; [|reflexivity|].
    + now destruct (Hleft p Hlt).
    + specialize (H3 k ltac:(lia)). apply (matches_at_iff heap nm k Hle) in Hk. congruence.
  - specialize (H k ltac:(lia)). apply (matches_at_iff heap nm k Hle) in Hk. congruence.
Qed.

Lemma first_match_none (heap nm : str) :
  (forall k, ~ occurs_at heap nm k) -> Spec.first_match heap nm = None.
Proof.
  intros Hno. unfold Spec.first_match.
  pose proof (find_seq_first (Spec.matches_at heap nm) (S (List.length heap)) 0) as H.
  destruct (List.find _ _) as [p|]; [|reflexivity].
  destruct H as (H1 & H2 & _). apply matches_at_iff in H1; [|lia]. now destruct (Hno p).
Qed.

(** Lines 106-110 and steps 2b-2c do the same to the heap and choose the
    same offset. *)
Lemma place_assign (names : list str) (c : codepoint) (i : nat)
      (offs : Spec.offsets) (heap : str) :
  name c = Some (nth i names []) ->
  exists p h1,
    place c heap = Ok (assigned c (Z.of_nat p), h1) /\
    Spec.assign names (offs, heap) i = (Spec.set_offset offs i p, h1).
Proof.
  intros Hn. unfold Spec.assign. cbn [fst snd].
  destruct (place_spec c heap _ Hn) as [(k & H1 & H2 & H3) | [H1 H2]].
  - exists k, heap. split; [assumption|]. now rewrite (first_match_leftmost _ _ _ H2 H3).
  - exists (List.length heap), (heap ++ nth i names []). split; [assumption|].
    now rewrite (first_match_none _ _ H2).
Qed.

Section Refinement.

Variable names : list str.

Lemma agrees_tail k todo c suf offs :
  agrees names k todo (c :: suf) offs -> agrees names (S k) todo suf offs.
Proof.
  intros H j d Hd. specialize (H (S j) d Hd).
  now replace (k + S j)%nat with (S k + j)%nat in H by lia.
Qed.

Lemma agrees_cons k todo c suf offs :
  namesize c = len (nth k names []) ->
  nameoffset c = option_map Z.of_nat (offs k) ->
  (In (List.length (nth k names [])) todo -> name c = Some (nth k names [])) ->
  agrees names (S k) todo suf offs ->
  agrees names k todo (c :: suf) offs.
Proof.
  intros H1 H2 H3 H [|j] d; cbn [nth_error].
  - intros [= <-]. now rewrite Nat.add_0_r.
  - intros Hd. specialize (H j d Hd).
    now replace (k + S j)%nat with (S k + j)%nat by lia.
Qed.

Lemma agrees_head k todo c suf offs :
  agrees names k todo (c :: suf) offs ->
  namesize c = len (nth k names []) /\
  nameoffset c = option_map Z.of_nat (offs k) /\
  (In (List.length (nth k names [])) todo -> name c = Some (nth k names [])).
Proof. intros H. specialize (H 0%nat c eq_refl). now rewrite Nat.add_0_r in H. Qed.

Lemma agrees_ext k todo suf offs offs' :
  (forall j, (k <= j)%nat -> offs' j = offs j) ->
  agrees names k todo suf offs -> agrees names k todo suf offs'.
Proof.
  intros He H j c Hc. destruct (H j c Hc) as (H1 & H2 & H3).
  repeat split; trivial. rewrite He by lia. assumption.
Qed.

(** One pass of the inner loop is the fold of the specification's step
    over the indices of that length. *)
Lemma heap_pass_refines (l : nat) (todo : list nat) :
  ~ In l todo ->
  forall suf k offs heap,
    agrees names k (l :: todo) suf offs ->
    let st' := fold_left (Spec.assign names)
                 (filter (fun i => Nat.eqb (List.length (nth i names [])) l)
                         (seq k (List.length suf)))
                 (offs, heap) in
    exists suf',
      heap_pass (Z.of_nat l) suf heap = Ok (suf', snd st') /\
      agrees names k todo suf' (fst st') /\
      forall j, (j < k)%nat -> fst st' j = offs j.
Proof.
  intros Hl. induction suf as [|c suf IH]; intros k offs heap Hag; cbv zeta.
  - exists []. cbn. split; [reflexivity|]. split; [|reflexivity].
    intros j c Hc. destruct j; discriminate.
  - destruct (agrees_head _ _ _ _ _ Hag) as (Hsz & Hoff & Hname).
    cbn [List.length seq filter heap_pass]. unfold len in Hsz.
    destruct (Nat.eqb_spec (List.length (nth k names [])) l) as [E|E].
    + replace (namesize c =? Z.of_nat l) with true by (symmetry; apply Z.eqb_eq; lia).
      cbn [negb fold_left].
      destruct (place_assign names c k offs heap) as (p & h1 & Hp & Ha).
      { apply Hname. left. symmetry. exact E. }
      rewrite Hp, Ha. cbn [bind fst snd].
      destruct (IH (S k) (Spec.set_offset offs k p) h1) as (suf' & Hr & Hag' & Hfr).
      { apply agrees_ext with (offs := offs).
        - intros j Hj. unfold Spec.set_offset.
          destruct (Nat.eqb_spec j k); [lia | reflexivity].
        - eapply agrees_tail; eassumption. }
      cbv zeta in Hr, Hag', Hfr. rewrite Hr. cbn [bind fst snd].
      eexists. split; [reflexivity|]. split.
      * apply agrees_cons; trivial.
        -- cbn [assigned nameoffset]. rewrite Hfr by lia. unfold Spec.set_offset.
           now rewrite Nat.eqb_refl.
        -- intros Hin. rewrite E in Hin. contradiction.
      * intros j Hj. rewrite Hfr by lia. unfold Spec.set_offset.
        destruct (Nat.eqb_spec j k); [lia | reflexivity].
    + replace (namesize c =? Z.of_nat l) with false by (symmetry; apply Z.eqb_neq; lia).
      cbn [negb].
      destruct (IH (S k) offs heap) as (suf' & Hr & Hag' & Hfr).
      { eapply agrees_tail; eassumption. }
      cbv zeta in Hr, Hag', Hfr. rewrite Hr. cbn [bind fst snd].
      eexists. split; [reflexivity|]. split.
      * apply agrees_cons; trivial.
        -- rewrite Hfr by lia. assumption.
        -- intros Hin. apply Hname. now right.
      * intros j Hj. apply Hfr. lia.
Qed.

(** The outer loop is the fold over the lengths, one after the other. *)
Lemma heap_loop_refines (ls : list nat) :
  NoDup ls ->
  forall cl offs heap,
    List.length cl = List.length names ->
    agrees names 0 ls cl offs ->
    let st' := fold_left (Spec.assign names) (flat_map (Spec.of_length names) ls)
                 (offs, heap) in
    exists cl',
      heap_loop (map Z.of_nat ls) cl heap = Ok (cl', snd st') /\
      agrees names 0 [] cl' (fst st').
Proof.
  induction 1 as [|l ls Hl Hnd IH]; intros cl offs heap Hlen Hag; cbv zeta.
  - exists cl. cbn. split; [reflexivity | assumption].
  - cbn [map heap_loop flat_map]. rewrite fold_left_app.
    destruct (heap_pass_refines l ls Hl cl 0%nat offs heap Hag) as (cl1 & Hp & Hag1 & _).
    cbv zeta in Hp, Hag1. rewrite Hlen in Hp, Hag1.
    change (filter _ (seq 0 (List.length names))) with (Spec.of_length names l) in Hp, Hag1.
    rewrite Hp. cbn [bind fst snd].
    set (st1 := fold_left _ (Spec.of_length names l) _) in *.
    destruct (IH cl1 (fst st1) (snd st1)) as (cl' & Hr & Hag').
    + apply heap_pass_length in Hp. congruence.
    + assumption.
    + cbv zeta in Hr, Hag'. rewrite <- surjective_pairing in Hr, Hag'.
      exists cl'. split; assumption.
Qed.

End Refinement.

Lemma lengths_down_range (m x : nat) : In x (Spec.lengths_down m) -> (1 <= x <= m)%nat.
Proof.
  induction m as [|m IH]; cbn [Spec.lengths_down]; [contradiction|].
  intros [<-|H]; [lia|]. specialize (IH H). lia.
Qed.

Lemma lengths_down_NoDup (m : nat) : NoDup (Spec.lengths_down m).
Proof.
  induction m as [|m IH]; cbn [Spec.lengths_down]; constructor; [|assumption].
  intros H. apply lengths_down_range in H. lia.
Qed.

Lemma xrange3_lengths_down (m : nat) :
  xrange3 (Z.of_nat m) 0 (-1) = map Z.of_nat (Spec.lengths_down m).
Proof.
  induction m as [|m IH].
  - now rewrite xrange3_down_nil by lia.
  - rewrite xrange3_down_step by lia. cbn [Spec.lengths_down map]. f_equal.
    rewrite <- IH. f_equal. lia.
Qed.

Lemma names_of_nth (cl : list codepoint) (j : nat) (c : codepoint) (n : str) :
  nth_error cl j = Some c -> name c = Some n -> nth j (names_of cl) [] = n.
Proof.
  intros Hc Hn. apply nth_error_nth. unfold names_of.
  rewrite nth_error_map, Hc. cbn [option_map]. now rewrite Hn.
Qed.

Lemma max_length_names (cl : list codepoint) :
  Forall fresh cl -> max_namesize cl = Z.of_nat (Spec.max_length (names_of cl)).
Proof.
  induction 1 as [|c cl (n & Hn & Hs) _ IH]; [reflexivity|].
  unfold max_namesize, Spec.max_length, names_of in *. cbn [map fold_right].
  rewrite IH, Hn, Hs. unfold len. lia.
Qed.

Lemma extracted_agrees (g : globals) (todo : list nat) :
  extractor_inv g ->
  agrees (names_of (charlist g)) 0 todo (charlist g) (fun _ => None).
Proof.
  intros [Hall _] j c Hc. rewrite Forall_forall in Hall.
  destruct (Hall c (nth_error_In _ _ Hc)) as (n & Hn & Hs & _ & Ho & _).
  cbn [Nat.add]. rewrite (names_of_nth _ _ _ _ Hc Hn). auto.
Qed.

(** C2.  On the extracted records the two nested loops compute what the
    algorithm of the specification computes: the records are taken by name
    length from the greatest length down to 1 and, within a length, in
    their order in the list; each name is searched in the heap built so
    far; a name that is found gets the first matching position and leaves
    the heap as it is; a name that is not found gets the current length of
    the heap and is appended.  The heap and every offset are the same. *)
Theorem C2_builder_is_longest_first_fold (input : str) (g : globals) :
  extract input = Ok g ->
  exists cl',
    build_nameheap (charlist g) (maxnamesize g) =
      Ok (cl', snd (Spec.heap_builder (names_of (charlist g)))) /\
    List.length cl' = List.length (charlist g) /\
    forall i r', nth_error cl' i = Some r' ->
      nameoffset r' =
      option_map Z.of_nat (fst (Spec.heap_builder (names_of (charlist g))) i).
Proof.
  intros He. pose proof (extract_inv _ _ He) as Hinv.
  destruct (extracted_fresh _ Hinv) as [Hf Hs].
  pose proof (extracted_agrees g (Spec.lengths_down (Spec.max_length (names_of (charlist g)))) Hinv)
    as Hag.
  destruct (heap_loop_refines (names_of (charlist g)) _
              (lengths_down_NoDup (Spec.max_length (names_of (charlist g))))
              (charlist g) (fun _ => None) [])
    as (cl' & Hr & Hag'); [unfold names_of; now rewrite length_map | exact Hag |].
  cbv zeta in Hr, Hag'. exists cl'.
  assert (Hb : build_nameheap (charlist g) (maxnamesize g) =
               Ok (cl', snd (Spec.heap_builder (names_of (charlist g))))).
  { unfold build_nameheap. destruct Hinv as [_ ->].
    now rewrite (max_length_names _ Hf), xrange3_lengths_down. }
  split; [exact Hb|]. split.
  - destruct (build_nameheap_placed _ _ Hf Hs) as (cl2 & heap2 & Hb2 & H2).
    rewrite Hb in Hb2. injection Hb2 as -> _. symmetry. eapply Forall2_length; eassumption.
  - intros i r' Hr'. now destruct (Hag' i r' Hr') as (_ & H & _).
Qed.

Lemma C2_builder_is_longest_first_fold_witness :
  exists cl',
    build_nameheap (charlist sample_globals) (maxnamesize sample_globals) =
      Ok (cl', snd (Spec.heap_builder (names_of (charlist sample_globals)))) /\
    List.length cl' = List.length (charlist sample_globals) /\
    forall i r', nth_error cl' i = Some r' ->
      nameoffset r' =
      option_map Z.of_nat (fst (Spec.heap_builder (names_of (charlist sample_globals))) i).
Proof.
  apply (C2_builder_is_longest_first_fold sample sample_globals). vm_compute. reflexivity.
Defined.

(** ** A name inside a name placed earlier *)

Lemma xrange3_desc_split (n : nat) (s : Z) :
  0 <= s ->
  xrange3 (s + Z.of_nat n) 0 (-1) = xrange3 (s + Z.of_nat n) s (-1) ++ xrange3 s 0 (-1).
Proof.
  intros Hs. induction n as [|n IH].
  - rewrite (xrange3_desc_nil _ s) by lia. cbn [app]. f_equal. lia.
  - rewrite (xrange3_desc_step _ 0), (xrange3_desc_step _ s) by lia.
    replace (s + Z.of_nat (S n) - 1) with (s + Z.of_nat n) by lia.
    now rewrite IH.
Qed.

Lemma heap_loop_app (a b : list Z) :
  forall cl heap,
    heap_loop (a ++ b) cl heap =
    (r <- heap_loop a cl heap ;; heap_loop b (fst r) (snd r)).
Proof.
  induction a as [|s a IH]; intros cl heap; cbn [app heap_loop bind fst snd]; [reflexivity|].
  destruct (heap_pass s cl heap) as [[l h]|]; cbn [bind fst snd]; [apply IH | reflexivity].
Qed.

Lemma heap_loop_length (sizes : list Z) :
  forall cl heap cl' heap',
    heap_loop sizes cl heap = Ok (cl', heap') -> List.length cl' = List.length cl.
Proof.
  induction sizes as [|s sizes IH]; intros cl heap cl' heap'; cbn [heap_loop].
  - now intros [= <- _].
  - destruct (heap_pass s cl heap) as [[l h]|] eqn:E; cbn [bind fst snd]; [|discriminate].
    intros H. apply IH in H. apply heap_pass_length in E. congruence.
Qed.

(** A record whose size is not among the sizes of the loop comes out of
    it as it went in. *)
Lemma heap_loop_keeps (sizes : list Z) (cl cl' : list codepoint) (heap heap' : str)
      (i : nat) (c : codepoint) :
  heap_loop sizes cl heap = Ok (cl', heap') ->
  nth_error cl i = Some c ->
  Forall (fun size => namesize c <> size) sizes ->
  nth_error cl' i = Some c.
Proof.
  intros Hl Hc Hs. apply nth_error_split in Hc as (pre & post & -> & <-).
  rewrite (heap_loop_skip sizes c Hs) in Hl.
  destruct (heap_loop sizes (pre ++ post) heap) as [[l h]|] eqn:E; cbn [put_back] in Hl;
    [|discriminate].
  injection Hl as <- _. apply heap_loop_length in E. rewrite length_app in E.
  rewrite nth_error_app2; rewrite length_firstn; [|lia].
  replace (_ - _)%nat with 0%nat by lia. reflexivity.
Qed.

(** The pass for the size of the record at index [b], cut where it comes
    to that record. *)
Lemma heap_pass_at (size : Z) (cl : list codepoint) :
  forall heap cl' heap' b c,
    heap_pass size cl heap = Ok (cl', heap') ->
    nth_error cl b = Some c -> namesize c = size ->
    exists pfx hb c' hb',
      heap_pass size (firstn b cl) heap = Ok (pfx, hb) /\
      place c hb = Ok (c', hb') /\
      nth_error cl' b = Some c' /\
      firstn b cl' = pfx.
Proof.
  induction cl as [|d cl IH]; intros heap cl' heap' b c Hp Hb Hc.
  - destruct b; discriminate.
  - cbn [heap_pass] in Hp. destruct b as [|b]; cbn [nth_error] in Hb.
    + injection Hb as ->.
      replace (namesize c =? size) with true in Hp by (symmetry; now apply Z.eqb_eq).
      cbn [negb] in Hp.
      destruct (place c heap) as [[c1 h1]|] eqn:E; cbn [bind fst snd] in Hp; [|discriminate].
      destruct (heap_pass size cl h1) as [[l h]|]; cbn [bind fst snd] in Hp; [|discriminate].
      injection Hp as <- _. exists [], heap, c1, h1. repeat split. exact E.
    + cbn [firstn heap_pass]. destruct (negb (namesize d =? size)).
      * destruct (heap_pass size cl heap) as [[l h]|] eqn:E; cbn [bind fst snd] in Hp;
          [|discriminate].
        injection Hp as <- _.
        destruct (IH _ _ _ _ _ E Hb Hc) as (pfx & hb & c' & hb' & H1 & H2 & H3 & H4).
        rewrite H1. cbn [bind fst snd]. exists (d :: pfx), hb, c', hb'.
        repeat split; trivial. cbn [firstn]. now rewrite H4.
      * destruct (place d heap) as [[d1 h1]|]; cbn [bind fst snd] in Hp |- *; [|discriminate].
        destruct (heap_pass size cl h1) as [[l h]|] eqn:E; cbn [bind fst snd] in Hp;
          [|discriminate].
        injection Hp as <- _.
        destruct (IH _ _ _ _ _ E Hb Hc) as (pfx & hb & c' & hb' & H1 & H2 & H3 & H4).
        rewrite H1. cbn [bind fst snd]. exists (d1 :: pfx), hb, c', hb'.
        repeat split; trivial. cbn [firstn]. now rewrite H4.
Qed.

Lemma Forall2_firstn {A B} (R : A -> B -> Prop) (n : nat) :
  forall l l', Forall2 R l l' -> Forall2 R (firstn n l) (firstn n l').
Proof.
  induction n as [|n IH]; intros l l' H; [constructor|].
  destruct H; cbn [firstn]; constructor; auto.
Qed.

Lemma nth_error_firstn_lt {A} (l : list A) (i n : nat) :
  (i < n)%nat -> nth_error (firstn n l) i = nth_error l i.
Proof.
  revert l i. induction n as [|n IH]; intros l i H; [lia|].
  destruct l as [|x l]; [now destruct i|]. destruct i as [|i]; [reflexivity|].
  cbn [firstn nth_error]. apply IH. lia.
Qed.

Lemma occurs_at_inner (s pre sub post : str) (k : nat) :
  occurs_at s (pre ++ sub ++ post) k -> occurs_at s sub (k + List.length pre).
Proof.
  intros (p & q & -> & <-). exists (p ++ pre), (post ++ q). split.
  - now rewrite <- !app_assoc.
  - apply length_app.
Qed.

Lemma placed_inv (heap : str) (o c : codepoint) (n : str) :
  placed heap o c -> name o = Some n ->
  exists k, c = assigned o (Z.of_nat k) /\ occurs_at heap n k.
Proof.
  intros (n' & k & Hn & -> & Hocc) Hn'. rewrite Hn in Hn'. injection Hn' as ->.
  now exists k.
Qed.

Lemma assigned_inj (c : codepoint) (j k : nat) :
  assigned c (Z.of_nat j) = assigned c (Z.of_nat k) -> j = k.
Proof. unfold assigned. intros [= H]. lia. Qed.

(** The name of [B] lies inside the name of [A], and [A] comes before [B]
    in the order of the loops.  Then, when the loops come to [B], the name
    of [A] is already in the heap at the offset [A] ends up with; [B] is
    found there or further left, gets the leftmost occurrence, and the heap
    stays as it is. *)
Lemma substring_reuse (cl : list codepoint) (maxsize : Z) (a b : nat)
      (A B : codepoint) (na nb pre post : str) :
  Forall fresh cl ->
  Forall (fun c => 1 <= namesize c <= maxsize) cl ->
  nth_error cl a = Some A -> nth_error cl b = Some B ->
  name A = Some na -> name B = Some nb ->
  na = pre ++ nb ++ post ->
  namesize B < namesize A \/ (namesize A = namesize B /\ (a < b)%nat) ->
  exists cl' heap ka kb hb,
    build_nameheap cl maxsize = Ok (cl', heap) /\
    nth_error cl' a = Some (assigned A (Z.of_nat ka)) /\
    nth_error cl' b = Some (assigned B (Z.of_nat kb)) /\
    reach cl maxsize b = Ok (B, hb) /\
    place B hb = Ok (assigned B (Z.of_nat kb), hb) /\
    occurs_at hb na ka /\
    occurs_at heap nb kb /\
    (kb <= ka + List.length pre)%nat /\
    forall j, (j < kb)%nat -> ~ occurs_at hb nb j.
Proof.
  intros Hf Hs Ha Hb Hna Hnb Hsub Hord.
  assert (HsB : 1 <= namesize B <= maxsize).
  { rewrite Forall_forall in Hs. apply Hs. eapply nth_error_In; eassumption. }
  set (sB := namesize B) in *.
  (* the passes for the longer sizes *)
  destruct (heap_loop_inv (Z.to_nat (maxsize - sB)) sB cl cl [] Hf) as (cl1 & h1 & H1 & F1).
  { apply Forall2_diag. eapply Forall_impl; [|exact Hs]. intros c Hc. cbv beta in Hc.
    split; intros; [lia | reflexivity]. }
  replace (sB + Z.of_nat (Z.to_nat (maxsize - sB))) with maxsize in H1 by lia.
  cbn [app] in H1, F1.
  (* the pass for the size of B *)
  destruct (heap_pass_inv sB cl Hf cl1 h1 F1) as (cl2 & e2 & Hp & F2).
  (* the passes for the shorter sizes *)
  destruct (heap_loop_inv (Z.to_nat (sB - 1)) 0 cl cl2 (h1 ++ e2) Hf) as (cl' & e3 & Hl & F3).
  { now replace (0 + Z.of_nat (Z.to_nat (sB - 1))) with (sB - 1) by lia. }
  replace (0 + Z.of_nat (Z.to_nat (sB - 1))) with (sB - 1) in Hl by lia.
  set (heap := (h1 ++ e2) ++ e3) in *.
  assert (Hrest : heap_loop (xrange3 sB 0 (-1)) cl1 h1 = Ok (cl', heap)).
  { rewrite xrange3_desc_step by lia. cbn [heap_loop]. rewrite Hp. exact Hl. }
  assert (Hbuild : build_nameheap cl maxsize = Ok (cl', heap)).
  { unfold build_nameheap.
    replace maxsize with (sB + Z.of_nat (Z.to_nat (maxsize - sB))) at 1 by lia.
    rewrite xrange3_desc_split by lia.
    replace (sB + Z.of_nat (Z.to_nat (maxsize - sB))) with maxsize by lia.
    rewrite heap_loop_app, H1. exact Hrest. }
  (* B is untouched when its pass begins *)
  destruct (Forall2_nth_error_l _ _ _ F1 b B Hb) as (B1 & HB1 & _ & HB1').
  rewrite (HB1' ltac:(subst sB; lia)) in HB1. clear B1 HB1'.
  destruct (heap_pass_at sB cl1 h1 cl2 _ b B Hp HB1 eq_refl)
    as (pfx & hb & B' & hb' & Hpre & Hplace & HB2 & Hfirst).
  assert (Hreach : reach cl maxsize b = Ok (B, hb)).
  { unfold reach, getitem. rewrite Hb. cbn [bind]. fold sB. rewrite H1. cbn [bind fst snd].
    rewrite Hpre. cbn [bind fst snd]. now rewrite HB1. }
  (* the records before B in its pass *)
  assert (Hf' : Forall fresh (firstn b cl)).
  { rewrite <- (firstn_skipn b cl) in Hf. now apply Forall_app in Hf. }
  destruct (heap_pass_inv sB (firstn b cl) Hf' (firstn b cl1) h1 (Forall2_firstn _ b _ _ F1))
    as (pfx' & e & Hpre' & Fp).
  rewrite Hpre in Hpre'. injection Hpre' as <- ->.
  (* A is in the heap by then, and keeps its offset *)
  assert (HA : exists ka, occurs_at (h1 ++ e) na ka /\
                          nth_error cl' a = Some (assigned A (Z.of_nat ka))).
  { destruct Hord as [Hlt | [Heq Hab]].
    - destruct (Forall2_nth_error_l _ _ _ F1 a A Ha) as (A1 & HA1 & HA1' & _).
      destruct (placed_inv _ _ _ _ (HA1' Hlt) Hna) as (ka & -> & Hocc).
      exists ka. split; [now apply occurs_at_app|].
      apply (heap_loop_keeps _ _ _ _ _ _ _ Hrest HA1).
      apply Forall_forall. intros x Hx. apply xrange3_desc_In in Hx.
      cbn [assigned namesize]. lia.
    - assert (Ha' : nth_error (firstn b cl) a = Some A)
        by now rewrite nth_error_firstn_lt.
      destruct (Forall2_nth_error_l _ _ _ Fp a A Ha') as (A2 & HA2 & HA2' & _).
      destruct (placed_inv _ _ _ _ (HA2' ltac:(subst sB; lia)) Hna) as (ka & -> & Hocc).
      exists ka. split; [assumption|].
      rewrite <- Hfirst, nth_error_firstn_lt in HA2 by assumption.
      apply (heap_loop_keeps _ _ _ _ _ _ _ Hl HA2).
      apply Forall_forall. intros x Hx. apply xrange3_desc_In in Hx.
      cbn [assigned namesize]. subst sB. lia. }
  destruct HA as (ka & HoccA & HA').
  (* so B is found *)
  assert (HoccB : occurs_at (h1 ++ e) nb (ka + List.length pre)).
  { apply occurs_at_inner with (post := post). now rewrite <- Hsub. }
  destruct (place_spec B (h1 ++ e) nb Hnb) as [(kb & Hpl & Hocc & Hleft) | [_ Hno]];
    [|now destruct (Hno _ HoccB)].
  rewrite Hpl in Hplace. injection Hplace as <- <-.
  assert (HB' : nth_error cl' b = Some (assigned B (Z.of_nat kb))).
  { apply (heap_loop_keeps _ _ _ _ _ _ _ Hl HB2).
    apply Forall_forall. intros x Hx. apply xrange3_desc_In in Hx.
    cbn [assigned namesize]. subst sB. lia. }
  exists cl', heap, ka, kb, (h1 ++ e). repeat split; trivial.
  - destruct (Forall2_nth_error_l _ _ _ F3 b B Hb) as (B3 & HB3 & HB3' & _).
    destruct (placed_inv _ _ _ _ (HB3' ltac:(subst sB; lia)) Hnb) as (k3 & -> & Hocc3).
    rewrite HB' in HB3. injection HB3 as HB3. apply Nat2Z.inj in HB3. now subst k3.
  - destruct (Nat.le_gt_cases kb (ka + List.length pre)) as [|Hgt]; [assumption|].
    now destruct (Hleft _ Hgt).
Qed.

Lemma clamp_cases (n i : Z) :
  0 <= n -> 0 <= i -> clamp n i = Z.min n i.
Proof.
  intros Hn Hi. unfold clamp.
  destruct (Z.ltb_spec i 0); [lia|].
  destruct (Z.ltb_spec i 0); [lia|].
  destruct (Z.ltb_spec n i); lia.
Qed.

(** A slice that reads a non-empty text back is an occurrence of it. *)
Lemma slice_occurs (s sub : str) (j : Z) :
  0 <= j -> 1 <= len sub ->
  slice s j (j + len sub) = sub -> occurs_at s sub (Z.to_nat j).
Proof.
  intros Hj Hsub H. unfold slice in H.
  pose proof (len_nonneg s) as Hs.
  rewrite !clamp_cases in H by lia.
  pose proof (f_equal (@List.length ascii) H) as Hl.
  rewrite length_firstn, length_skipn in Hl. unfold len in *.
  assert (Hfit : j + Z.of_nat (List.length sub) <= Z.of_nat (List.length s)) by lia.
  replace (Z.to_nat _) with (List.length sub) in H by lia.
  replace (Z.to_nat (Z.min _ j)) with (Z.to_nat j) in H by lia.
  exists (firstn (Z.to_nat j) s), (skipn (List.length sub) (skipn (Z.to_nat j) s)). split.
  - rewrite <- H at 1. now rewrite !firstn_skipn.
  - rewrite length_firstn. lia.
Qed.

(** C3, as the script has it.  The name of [B] lies inside the name of
    [A], and [A] is processed before [B] (it is longer, or as long and
    earlier in the list).  Then the heap is not grown when [B] is
    processed, and [B] gets the leftmost occurrence of its name in the
    heap: that is the one inside the span of [A] or one further left, so
    the offset of [B] is at most the offset of [A] plus the position of
    the name of [B] in the name of [A], and its span ends no later than
    the span of [A]; it need not start inside it. *)
Theorem C3_substring_reuses_heap_at_leftmost
        (input : str) (g : globals) (a b : nat) (A B : codepoint)
        (na nb pre post : str) :
  extract input = Ok g ->
  nth_error (charlist g) a = Some A -> nth_error (charlist g) b = Some B ->
  name A = Some na -> name B = Some nb ->
  na = pre ++ nb ++ post ->
  namesize B < namesize A \/ (namesize A = namesize B /\ (a < b)%nat) ->
  exists cl' heap offa offb hb,
    build_nameheap (charlist g) (maxnamesize g) = Ok (cl', heap) /\
    nth_error cl' a = Some (assigned A offa) /\
    nth_error cl' b = Some (assigned B offb) /\
    reach (charlist g) (maxnamesize g) b = Ok (B, hb) /\
    place B hb = Ok (assigned B offb, hb) /\
    slice hb offa (offa + len na) = na /\
    slice heap offb (offb + len nb) = nb /\
    0 <= offb /\ offb <= offa + len pre /\
    offb + len nb <= offa + len na /\
    forall j, 0 <= j < offb -> slice hb j (j + len nb) <> nb.
Proof.
  intros He Ha Hb Hna Hnb Hsub Hord. pose proof (extract_inv _ _ He) as Hinv.
  destruct (extracted_fresh _ Hinv) as [Hf Hs].
  destruct (substring_reuse _ _ a b A B na nb pre post Hf Hs Ha Hb Hna Hnb Hsub Hord)
    as (cl' & heap & ka & kb & hb & H1 & H2 & H3 & H4 & H5 & H6 & H7 & H8 & H9).
  exists cl', heap, (Z.of_nat ka), (Z.of_nat kb), hb.
  repeat split; trivial.
  - now apply occurs_at_slice.
  - now apply occurs_at_slice.
  - lia.
  - unfold len. lia.
  - rewrite Hsub, !len_app. unfold len. lia.
  - intros j Hj Hsl. apply (H9 (Z.to_nat j)); [lia|].
    destruct Hinv as [Hall _]. rewrite Forall_forall in Hall.
    destruct (Hall B (nth_error_In _ _ Hb)) as (n & Hn & _ & Hlen & _).
    rewrite Hnb in Hn. injection Hn as <-.
    apply slice_occurs; [lia | assumption | assumption].
Qed.

Lemma C3_substring_reuses_heap_at_leftmost_witness :
  exists cl' heap offa offb hb,
    build_nameheap (charlist overlap_globals) (maxnamesize overlap_globals) = Ok (cl', heap) /\
    nth_error cl' 1 = Some (assigned (codepoint_init 66 (lit "yab") false) offa) /\
    nth_error cl' 2 = Some (assigned (codepoint_init 67 (lit "ab") false) offb) /\
    reach (charlist overlap_globals) (maxnamesize overlap_globals) 2 =
      Ok (codepoint_init 67 (lit "ab") false, hb) /\
    place (codepoint_init 67 (lit "ab") false) hb =
      Ok (assigned (codepoint_init 67 (lit "ab") false) offb, hb) /\
    slice hb offa (offa + len (lit "yab")) = lit "yab" /\
    slice heap offb (offb + len (lit "ab")) = lit "ab" /\
    0 <= offb /\ offb <= offa + len (lit "y") /\
    offb + len (lit "ab") <= offa + len (lit "yab") /\
    forall j, 0 <= j < offb -> slice hb j (j + len (lit "ab")) <> lit "ab".
Proof.
  apply (C3_substring_reuses_heap_at_leftmost overlap_input overlap_globals 1 2
           (codepoint_init 66 (lit "yab") false) (codepoint_init 67 (lit "ab") false)
           (lit "yab") (lit "ab") (lit "y") []);
    try reflexivity.
  left. vm_compute. reflexivity.
Defined.

(** The name "ab" lies inside "yab", which is longer and so is processed
    first and put at offset 3 of the heap "abxyab"; "ab" is then found at
    offset 0, in front of the span of "yab" and not inside it. *)
Lemma C3_counterexample :
  extract overlap_input = Ok overlap_globals /\
  build_nameheap (charlist overlap_globals) (maxnamesize overlap_globals) =
    Ok ([assigned (codepoint_init 65 (lit "abx") false) 0;
         assigned (codepoint_init 66 (lit "yab") false) 3;
         assigned (codepoint_init 67 (lit "ab") false) 0], lit "abxyab") /\
  lit "yab" = lit "y" ++ lit "ab" ++ [] /\
  namesize (codepoint_init 67 (lit "ab") false) < namesize (codepoint_init 66 (lit "yab") false) /\
  ~ (3 <= 0 /\ 0 + 2 <= 3 + 3).
Proof. repeat split. lia. Qed.

(** * Further properties *)

(** ** Ordinary lines, ranges and their edges *)

(** X1.  A line that is not skipped, whose codepoint parses and whose name
    does not start with < adds exactly one record at the end of the list:
    its codepoint, its name lowercased, the length of the name, no offset
    yet, and the combining flag 1 when the flag field is exactly Mn and 0
    otherwise.  The pending range start is left alone and [maxnamesize]
    becomes the larger of its old value and the length of the name. *)
Theorem X1_ordinary_line_adds_one_record
        (g : globals) (line f_uchar f_name flags : str) (rest : list str)
        (u : Z) (n0 : ascii) :
  split ";" line = f_uchar :: f_name :: flags :: rest ->
  is_skipped flags = Ok false ->
  int16 f_uchar = Ok u ->
  getitem (lower f_name) 0 = Ok n0 -> n0 <> "<"%char ->
  exists g' comb,
    process_line g line = Ok g' /\
    charlist g' = charlist g ++
      [{| uchar := u; combining := comb; name := Some (lower f_name);
          namesize := len f_name; nameoffset := None |}] /\
    (flags = lit "Mn" -> comb = 1) /\ (flags <> lit "Mn" -> comb = 0) /\
    rstart g' = rstart g /\
    maxnamesize g' = Z.max (maxnamesize g) (len f_name).
Proof.
  intros Hs Hk Hu Hn0 Hne.
  rewrite (process_line_unskipped _ _ _ _ _ _ _ Hs Hk Hu).
  unfold add_line. rewrite Hn0. cbn [bind].
  destruct (Ascii.eqb_spec n0 "<"); [contradiction|].
  edestruct track_max_spec as (g' & Ht & Hc & Hr & Hm);
    [|exists g', (if list_eqb flags (lit "Mn") then 1 else 0); split; [exact Ht|]].
  - cbn [charlist]. reflexivity.
  - rewrite Hc, Hr, Hm. unfold codepoint_init. cbn [charlist rstart maxnamesize namesize].
    rewrite !len_lower. split; [reflexivity|]. split; [|split; [|split; reflexivity]].
    + intros ->. reflexivity.
    + intros Hmn. destruct (list_eqb flags (lit "Mn")) eqn:E; [|reflexivity].
      apply list_eqb_eq in E. contradiction.
Qed.

Lemma X1_ordinary_line_adds_one_record_witness :
  exists g' comb,
    process_line one_record (lit "0300;COMBINING GRAVE ACCENT;Mn;230") = Ok g' /\
    charlist g' = charlist one_record ++
      [{| uchar := 768; combining := comb;
          name := Some (lower (lit "COMBINING GRAVE ACCENT"));
          namesize := len (lit "COMBINING GRAVE ACCENT"); nameoffset := None |}] /\
    (lit "Mn" = lit "Mn" -> comb = 1) /\ (lit "Mn" <> lit "Mn" -> comb = 0) /\
    rstart g' = rstart one_record /\
    maxnamesize g' = Z.max (maxnamesize one_record) (len (lit "COMBINING GRAVE ACCENT")).
Proof.
  apply (X1_ordinary_line_adds_one_record one_record
           (lit "0300;COMBINING GRAVE ACCENT;Mn;230")
           (lit "0300") (lit "COMBINING GRAVE ACCENT") (lit "Mn") [lit "230"] 768 "c"%char);
    try reflexivity.
  discriminate.
Defined.

(** X2.  While a range start [r] other than 0 is pending, a line whose
    name matches the range pattern, at a codepoint [u] with [r <= u], adds
    the [u - r + 1] records of the codepoints [r], [r + 1], ..., [u] at the
    end of the list, in that order, each named by the lowercased label of
    this line and not combining; the pending start is cleared and
    [maxnamesize] takes the length of the label into account.  This is so
    when xrange takes the range: [r] is at least [-sys.maxint - 1], [u] is
    below [sys.maxint] and there are at most [sys.maxint] codepoints.  (An
    ordinary UnicodeData.txt stays far inside these bounds.) *)
Theorem X2_range_line_adds_the_run
        (g : globals) (line f_uchar f_name flags : str) (rest : list str)
        (r u : Z) (label : str) :
  split ";" line = f_uchar :: f_name :: flags :: rest ->
  is_skipped flags = Ok false ->
  int16 f_uchar = Ok u ->
  re_match (lower f_name) = Some label ->
  rstart g = Some r -> r <> 0 -> r <= u ->
  - maxint - 1 <= r -> u < maxint -> u - r < maxint ->
  exists g' new,
    process_line g line = Ok g' /\
    charlist g' = charlist g ++ new /\
    len new = u - r + 1 /\
    (forall k, Z.of_nat k <= u - r ->
       nth_error new k = Some (codepoint_init (r + Z.of_nat k) (lower label) false)) /\
    rstart g' = None /\
    maxnamesize g' = Z.max (maxnamesize g) (len label).
Proof.
  intros Hs Hk Hu Hm Hr Hr0 Hle Hlo Hhi Hn.
  rewrite (process_line_unskipped _ _ _ _ _ _ _ Hs Hk Hu).
  assert (H0 : getitem (lower f_name) 0 = Ok "<"%char).
  { unfold re_match in Hm. destruct (lower f_name) as [|c s']; [discriminate|].
    destruct (Ascii.eqb_spec c "<"); [now subst | discriminate]. }
  unfold add_line. rewrite H0. cbn [bind Ascii.eqb Bool.eqb]. rewrite Hr, Hm.
  assert (Ht : truthy (Some r) = true).
  { cbn [truthy]. destruct (Z.eqb_spec r 0); [contradiction | reflexivity]. }
  rewrite Ht. rewrite xrange_call_fits by long_lia. cbn [bind].
  set (new := map (fun v => codepoint_init v (lower label) false) (xrange r (u + 1))).
  assert (Hlen : len new = u - r + 1).
  { unfold len, new. rewrite length_map. fold (len (xrange r (u + 1))).
    rewrite xrange_length; lia. }
  assert (Hnth : forall k, Z.of_nat k <= u - r ->
            nth_error new k = Some (codepoint_init (r + Z.of_nat k) (lower label) false)).
  { intros k Hk'. unfold new. rewrite nth_error_map, xrange_nth by lia. reflexivity. }
  destruct (nonempty_last new) as (xs & x & Ex).
  { intros E. rewrite E in Hlen. unfold len in Hlen. cbn in Hlen. lia. }
  assert (Hx : namesize x = len label).
  { assert (Hin : In x new) by (rewrite Ex; apply in_or_app; right; now left).
    unfold new in Hin. apply in_map_iff in Hin as (v & <- & _).
    cbn [namesize codepoint_init]. apply len_lower. }
  edestruct track_max_spec as (g' & Ht' & Hc & Hr' & Hmx);
    [|exists g', new; split; [exact Ht'|]].
  - cbn [charlist]. fold new. rewrite Ex, app_assoc. reflexivity.
  - rewrite Hc, Hr', Hmx, Hx. cbn [charlist rstart maxnamesize]. auto.
Qed.

Lemma X2_range_line_adds_the_run_witness :
  exists g' new,
    process_line pending_globals line_last = Ok g' /\
    charlist g' = charlist pending_globals ++ new /\
    len new = 259 - 256 + 1 /\
    (forall k, Z.of_nat k <= 259 - 256 ->
       nth_error new k = Some (codepoint_init (256 + Z.of_nat k) (lower (lit "block")) false)) /\
    rstart g' = None /\
    maxnamesize g' = Z.max (maxnamesize pending_globals) (len (lit "block")).
Proof.
  apply (X2_range_line_adds_the_run pending_globals line_last
           (lit "0103") (lit "<Block, Last>") (lit "Lo") [lit "0"] 256 259 (lit "block"));
    try reflexivity.
  - discriminate.
  - lia.
  - discriminate.
Defined.

(** X3.  A range that runs backwards is dropped without a word: while a
    start [r] other than 0 is pending, a matching range line at a codepoint
    [u] below [r] adds no record and clears the pending start.  This is so
    when the two arguments of xrange are C longs: [r] is at most
    [sys.maxint] and [u + 1] at least [-sys.maxint - 1]. *)
Theorem X3_backward_range_adds_nothing
        (g : globals) (line f_uchar f_name flags : str) (rest : list str)
        (r u : Z) (label : str) :
  split ";" line = f_uchar :: f_name :: flags :: rest ->
  is_skipped flags = Ok false ->
  int16 f_uchar = Ok u ->
  re_match (lower f_name) = Some label ->
  rstart g = Some r -> r <> 0 -> u < r ->
  r <= maxint -> - maxint - 2 <= u ->
  charlist g <> [] ->
  exists g',
    process_line g line = Ok g' /\
    charlist g' = charlist g /\ rstart g' = None.
Proof.
  intros Hs Hk Hu Hm Hr Hr0 Hlt Hhi Hlo Hne.
  rewrite (process_line_unskipped _ _ _ _ _ _ _ Hs Hk Hu).
  assert (H0 : getitem (lower f_name) 0 = Ok "<"%char).
  { unfold re_match in Hm. destruct (lower f_name) as [|c s']; [discriminate|].
    destruct (Ascii.eqb_spec c "<"); [now subst | discriminate]. }
  unfold add_line. rewrite H0. cbn [bind Ascii.eqb Bool.eqb]. rewrite Hr, Hm.
  assert (Ht : truthy (Some r) = true).
  { cbn [truthy]. destruct (Z.eqb_spec r 0); [contradiction | reflexivity]. }
  rewrite Ht. rewrite xrange_call_fits by long_lia. cbn [bind].
  assert (Hx : xrange r (u + 1) = []).
  { rewrite xrange_seq. replace (Z.to_nat (u + 1 - r)) with 0%nat by lia. reflexivity. }
  rewrite Hx. cbn [map]. rewrite app_nil_r.
  destruct (nonempty_last _ Hne) as (l & c & E).
  edestruct track_max_spec as (g' & Ht' & Hc & Hr' & _);
    [|exists g'; split; [exact Ht'|]].
  - cbn [charlist]. exact E.
  - rewrite Hc, Hr'. split; reflexivity.
Qed.

Lemma X3_backward_range_adds_nothing_witness :
  exists g',
    process_line pending_globals line_reversed = Ok g' /\
    charlist g' = charlist pending_globals /\ rstart g' = None.
Proof.
  apply (X3_backward_range_adds_nothing pending_globals line_reversed
           (lit "00FF") (lit "<Block, Last>") (lit "Lo") [lit "0"] 256 255 (lit "block"));
    try reflexivity; discriminate.
Defined.

(** X4.  While a range start other than 0 is pending, a line that is not
    skipped and whose name starts with < without matching the range
    pattern ends the run with an AttributeError (line 83 asks the failed
    match for its group). *)
Theorem X4_unmatched_name_in_a_range_raises
        (g : globals) (line f_uchar f_name flags : str) (rest : list str) (r u : Z) :
  split ";" line = f_uchar :: f_name :: flags :: rest ->
  is_skipped flags = Ok false ->
  int16 f_uchar = Ok u ->
  getitem (lower f_name) 0 = Ok "<"%char ->
  re_match (lower f_name) = None ->
  rstart g = Some r -> r <> 0 ->
  process_line g line = Raise AttributeError.
Proof.
  intros Hs Hk Hu H0 Hm Hr Hr0.
  rewrite (process_line_unskipped _ _ _ _ _ _ _ Hs Hk Hu).
  unfold add_line. rewrite H0. cbn [bind Ascii.eqb Bool.eqb]. rewrite Hr, Hm.
  cbn [truthy]. destruct (Z.eqb_spec r 0); [contradiction | reflexivity].
Qed.

Lemma X4_unmatched_name_in_a_range_raises_witness :
  process_line pending_globals line_odd = Raise AttributeError.
Proof.
  apply (X4_unmatched_name_in_a_range_raises pending_globals line_odd
           (lit "0104") (lit "<private use>") (lit "So") [lit "0"] 256 260);
    try reflexivity.
  discriminate.
Defined.

(** ** How a run ends *)

Lemma read_loop_app (l1 l2 : list str) :
  forall g, read_loop (l1 ++ l2) g = (g1 <- read_loop l1 g ;; read_loop l2 g1).
Proof.
  induction l1 as [|l l1 IH]; intros g; cbn [app read_loop bind]; [reflexivity|].
  destruct (process_line g l) as [g1|e]; cbn [bind]; [apply IH | reflexivity].
Qed.

Lemma skipped_line_passes (g : globals) (line : str) :
  skipped_line line -> process_line g line = Ok g.
Proof.
  intros (fu & fn & fl & rest & Hs & Hk). unfold process_line. now rewrite Hs, Hk.
Qed.

Lemma read_loop_skipped (lines : list str) (g : globals) :
  Forall skipped_line lines -> read_loop lines g = Ok g.
Proof.
  induction 1 as [|l lines Hl _ IH]; cbn [read_loop]; [reflexivity|].
  now rewrite (skipped_line_passes g l Hl).
Qed.

Lemma getitem_raises {A} (l : list A) (i : nat) (e : exn) :
  getitem l i = Raise e -> e = IndexError.
Proof. unfold getitem. destruct (nth_error l i); [discriminate | now intros [= <-]]. Qed.

Lemma getlast_raises {A} (l : list A) (e : exn) :
  getlast l = Raise e -> e = IndexError.
Proof. unfold getlast. destruct (rev l); [now intros [= <-] | discriminate]. Qed.

Lemma int16_raises (s : str) (e : exn) : int16 s = Raise e -> e = ValueError.
Proof.
  unfold int16. destruct (strip s) as [|c rest].
  - now intros [= <-].
  - destruct (if Ascii.eqb c "-" then _ else _); [discriminate | now intros [= <-]].
Qed.

(** The reading loop only ever dies of the exceptions its own lines can
    raise. *)
Lemma process_line_raises (g : globals) (line : str) (e : exn) :
  process_line g line = Raise e -> e <> TypeError.
Proof.
  unfold process_line.
  destruct (split ";" line) as [|fu [|fn [|fl rest]]]; try (intros [= <-]; discriminate).
  unfold is_skipped.
  destruct (getitem fl 0) as [f0|e0] eqn:E0; cbn [bind];
    [|intros [= <-]; apply getitem_raises in E0; subst; discriminate].
  assert (Hrest : forall g0,
     (u <- int16 fu ;; g' <- add_line g0 u (lower fn) fl ;; track_max g') = Raise e ->
     e <> TypeError).
  { intros g0. destruct (int16 fu) as [u|e1] eqn:E1; cbn [bind];
      [|intros [= <-]; apply int16_raises in E1; subst; discriminate].
    unfold add_line.
    destruct (getitem (lower fn) 0) as [n0|e2] eqn:E2; cbn [bind];
      [|intros [= <-]; apply getitem_raises in E2; subst; discriminate].
    assert (Ht : forall g1, track_max g1 = Raise e -> e <> TypeError).
    { intros g1. unfold track_max.
      destruct (getlast (charlist g1)) as [c|e3] eqn:E3; cbn [bind];
        [discriminate | intros [= <-]; apply getlast_raises in E3; subst; discriminate]. }
    destruct (Ascii.eqb n0 "<"); [|cbn [bind]; apply Ht].
    destruct (rstart g0) as [r|]; [|cbn [bind]; apply Ht].
    destruct (truthy (Some r)); [|cbn [bind]; apply Ht].
    destruct (re_match (lower fn)); cbn [bind]; [|intros [= <-]; discriminate].
    destruct (xrange_call r (u + 1)) as [us|e4] eqn:E4; cbn [bind];
      [apply Ht | intros [= <-]; apply xrange_call_raises in E4; subst; discriminate]. }
  destruct (Ascii.eqb f0 "C").
  - destruct (getitem fl 1) as [f1|e1] eqn:E1; cbn [bind];
      [|intros [= <-]; apply getitem_raises in E1; subst; discriminate].
    destruct (negb (Ascii.eqb f1 "f")); [discriminate | apply Hrest].
  - cbn [bind]. apply Hrest.
Qed.

Lemma read_loop_raises_not_TypeError (lines : list str) :
  forall g e, read_loop lines g = Raise e -> e <> TypeError.
Proof.
  induction lines as [|l lines IH]; intros g e; cbn [read_loop]; [discriminate|].
  destruct (process_line g l) as [g1|e1] eqn:E; cbn [bind].
  - apply IH.
  - intros [= <-]. eapply process_line_raises; eassumption.
Qed.

(** X5.  The two ways a run can end.  If the reading loop gets through the
    input, the heap builder ends normally as well, and the script has
    appended the progress notice to standard error, once, and the whole C
    text to standard output.  If the reading loop raises, the script has
    written nothing to either stream, the run ends with that exception,
    and the exception is never a TypeError: [find] is never asked for a
    name that has been dropped. *)
Theorem X5_run_ends_in_one_of_two_ways (p : process) :
  match extract (stdin p) with
  | Ok g =>
      exists cl heap,
        build_nameheap (charlist g) (maxnamesize g) = Ok (cl, heap) /\
        main p = ({| stdin := stdin p;
                     stdout := stdout p ++ output cl heap;
                     stderr := stderr p ++ notice |}, None)
  | Raise e => main p = (p, Some e) /\ e <> TypeError
  end.
Proof.
  unfold main. destruct (extract (stdin p)) as [g|e] eqn:He.
  - pose proof (extract_inv _ _ He) as Hinv.
    destruct (extracted_fresh _ Hinv) as [Hf Hs].
    destruct (build_nameheap_placed _ _ Hf Hs) as (cl & heap & Hb & _).
    exists cl, heap. split; [assumption|]. rewrite Hb. reflexivity.
  - split; [reflexivity|]. unfold extract in He.
    eapply read_loop_raises_not_TypeError; eassumption.
Qed.

(** X6.  An input in which every line is skipped, the empty input among
    them, gives the empty table: no record, an empty heap, and exactly the
    fixed text around them on standard output. *)
Theorem X6_only_skipped_lines_give_the_empty_table (input : str) :
  Forall skipped_line (readlines input) ->
  extract input = Ok initial /\
  run input = ({| stdin := input; stdout := empty_table; stderr := notice |}, None).
Proof.
  intros H. assert (He : extract input = Ok initial) by now apply read_loop_skipped.
  split; [assumption|]. unfold run, main. cbn [stdin]. rewrite He. reflexivity.
Qed.

Lemma X6_only_skipped_lines_give_the_empty_table_witness :
  (extract [] = Ok initial /\
   run [] = ({| stdin := []; stdout := empty_table; stderr := notice |}, None)) /\
  (extract controls_input = Ok initial /\
   run controls_input =
     ({| stdin := controls_input; stdout := empty_table; stderr := notice |}, None)).
Proof.
  split.
  - apply (X6_only_skipped_lines_give_the_empty_table []). constructor.
  - apply (X6_only_skipped_lines_give_the_empty_table controls_input).
    constructor; [|constructor; [|constructor]].
    + exists (lit "0000"), (lit "<control>"), (lit "Cc"), [lit "0" ++ nl]. split; reflexivity.
    + exists (lit "0001"), (lit "<control>"), (lit "Cc"), [lit "0" ++ nl]. split; reflexivity.
Defined.

(** X7.  A data file cannot begin with a range.  If the first line that is
    not skipped has a name starting with < (and a codepoint that parses),
    line 91 looks at the last record of an empty list: the run ends with
    an IndexError and prints nothing. *)
Theorem X7_range_line_before_any_record_raises
        (input : str) (skipped : list str) (line : str) (after : list str)
        (f_uchar f_name flags : str) (rest : list str) (u : Z) :
  readlines input = skipped ++ line :: after ->
  Forall skipped_line skipped ->
  split ";" line = f_uchar :: f_name :: flags :: rest ->
  is_skipped flags = Ok false ->
  int16 f_uchar = Ok u ->
  getitem (lower f_name) 0 = Ok "<"%char ->
  extract input = Raise IndexError /\
  run input = ({| stdin := input; stdout := []; stderr := [] |}, Some IndexError).
Proof.
  intros Hl Hsk Hs Hk Hu H0.
  assert (He : extract input = Raise IndexError).
  { unfold extract. rewrite Hl, read_loop_app, (read_loop_skipped _ _ Hsk). cbn [bind read_loop].
    rewrite (process_line_unskipped _ _ _ _ _ _ _ Hs Hk Hu).
    rewrite (add_line_opens initial u _ flags H0 eq_refl). reflexivity. }
  split; [assumption|]. unfold run, main. cbn [stdin]. now rewrite He.
Qed.

Lemma X7_range_line_before_any_record_raises_witness :
  extract (controls_input ++ line_first ++ nl ++ line_last ++ nl) = Raise IndexError /\
  run (controls_input ++ line_first ++ nl ++ line_last ++ nl) =
    ({| stdin := controls_input ++ line_first ++ nl ++ line_last ++ nl;
        stdout := []; stderr := [] |}, Some IndexError).
Proof.
  apply (X7_range_line_before_any_record_raises
           (controls_input ++ line_first ++ nl ++ line_last ++ nl)
           [lit "0000;<control>;Cc;0" ++ nl; lit "0001;<control>;Cc;0" ++ nl]
           (line_first ++ nl) [line_last ++ nl]
           (lit "0100") (lit "<Block, First>") (lit "Lo") [lit "0" ++ nl] 256);
    try reflexivity.
  constructor; [|constructor; [|constructor]].
  - exists (lit "0000"), (lit "<control>"), (lit "Cc"), [lit "0" ++ nl]. split; reflexivity.
  - exists (lit "0001"), (lit "<control>"), (lit "Cc"), [lit "0" ++ nl]. split; reflexivity.
Defined.

Lemma unindexable_line_raises (g : globals) (line : str) :
  unindexable_line line -> process_line g line = Raise IndexError.
Proof.
  intros (fu & fn & fl & rest & Hs & [-> | [-> | (Hk & [u Hu] & ->)]]).
  - unfold process_line. now rewrite Hs.
  - unfold process_line. now rewrite Hs.
  - now rewrite (process_line_unskipped _ _ _ _ _ _ _ Hs Hk Hu).
Qed.

(** X8.  Fields too short to index.  A line whose flag field is empty or
    is the single letter C, or a line that is not skipped, has a codepoint
    that parses and an empty name, raises IndexError where it stands: if
    the lines before it were read without an exception, the run ends with
    IndexError and prints nothing. *)
Theorem X8_unindexable_field_raises
        (input : str) (before : list str) (line : str) (after : list str) (g : globals) :
  readlines input = before ++ line :: after ->
  read_loop before initial = Ok g ->
  unindexable_line line ->
  extract input = Raise IndexError /\
  run input = ({| stdin := input; stdout := []; stderr := [] |}, Some IndexError).
Proof.
  intros Hl Hb Hbad.
  assert (He : extract input = Raise IndexError).
  { unfold extract. rewrite Hl, read_loop_app, Hb. cbn [bind read_loop].
    now rewrite (unindexable_line_raises g line Hbad). }
  split; [assumption|]. unfold run, main. cbn [stdin]. now rewrite He.
Qed.

Lemma X8_unindexable_field_raises_witness :
  extract (lit "0041;A;Lu;0" ++ nl ++ lit "0042;;Lu;0" ++ nl) = Raise IndexError /\
  run (lit "0041;A;Lu;0" ++ nl ++ lit "0042;;Lu;0" ++ nl) =
    ({| stdin := lit "0041;A;Lu;0" ++ nl ++ lit "0042;;Lu;0" ++ nl;
        stdout := []; stderr := [] |}, Some IndexError).
Proof.
  apply (X8_unindexable_field_raises
           (lit "0041;A;Lu;0" ++ nl ++ lit "0042;;Lu;0" ++ nl)
           [lit "0041;A;Lu;0" ++ nl] (lit "0042;;Lu;0" ++ nl) [] one_record);
    try reflexivity.
  exists (lit "0042"), [], (lit "Lu"), [lit "0" ++ nl].
  split; [reflexivity|]. right. right. repeat split. now exists 66.
Defined.

(** ** What the reading loop builds *)

Lemma add_line_made (g ga : globals) (u : Z) (nm flags : str) :
  lower nm = nm ->
  add_line g u nm flags = Ok ga ->
  exists new, charlist ga = charlist g ++ new /\ Forall made new.
Proof.
  intros Hlow. unfold add_line.
  destruct (getitem nm 0) as [n0|] eqn:E0; cbn [bind]; [|discriminate].
  pose proof (getitem_0_len _ _ E0) as Hlen.
  assert (Hsame : forall r, exists new : list codepoint,
            charlist {| charlist := charlist g; maxnamesize := maxnamesize g; rstart := r |} =
            charlist g ++ new /\ Forall made new).
  { intros r. exists []. cbn [charlist]. rewrite app_nil_r. split; constructor. }
  destruct (Ascii.eqb n0 "<").
  - destruct (rstart g) as [r|]; [|intros [= <-]; apply Hsame].
    destruct (truthy (Some r)); [|intros [= <-]; apply Hsame].
    destruct (re_match nm) as [g1|] eqn:Em; [|discriminate].
    destruct (xrange_call r (u + 1)) as [us|]; cbn [bind]; [|discriminate].
    intros [= <-]. cbn [charlist]. eexists. split; [reflexivity|].
    apply Forall_forall. intros c Hc. apply in_map_iff in Hc as (v & <- & _).
    exists v, (lower g1), false. split; [reflexivity|]. split; [|apply lower_idem].
    rewrite len_lower. pose proof (re_match_nonempty _ _ Em) as Hne.
    destruct g1; [contradiction|]. unfold len. cbn [List.length]. lia.
  - intros [= <-]. cbn [charlist]. eexists. split; [reflexivity|].
    constructor; [|constructor]. now exists u, nm, (list_eqb flags (lit "Mn")).
Qed.

Lemma process_line_made (g g' : globals) (line : str) :
  process_line g line = Ok g' ->
  exists new, charlist g' = charlist g ++ new /\ Forall made new /\
              (charlist g' = [] -> g' = g).
Proof.
  intros H. apply process_line_ok in H as
    [(? & ? & ? & ? & _ & _ & ->) | (fu & fn & fl & rest & u & ga & _ & _ & _ & Ha & Ht)].
  - exists []. rewrite app_nil_r. repeat split. constructor.
  - destruct (add_line_made _ _ _ _ _ (lower_idem fn) Ha) as (new & Hc & Hm).
    destruct (track_max_fields _ _ Ht) as [Hc' _].
    exists new. rewrite Hc', Hc. repeat split; trivial.
    intros Hnil. unfold track_max in Ht. rewrite Hc, Hnil in Ht. discriminate.
Qed.

Lemma read_loop_made (lines : list str) :
  forall g g', read_loop lines g = Ok g' ->
    exists new, charlist g' = charlist g ++ new /\ Forall made new /\
                (charlist g' = [] -> g' = g).
Proof.
  induction lines as [|l lines IH]; intros g g'; cbn [read_loop].
  - intros [= <-]. exists []. rewrite app_nil_r. repeat split. constructor.
  - destruct (process_line g l) as [g1|] eqn:E; cbn [bind]; [|discriminate].
    intros H. destruct (process_line_made _ _ _ E) as (n1 & H1 & M1 & Z1).
    destruct (IH _ _ H) as (n2 & H2 & M2 & Z2).
    exists (n1 ++ n2). split; [now rewrite H2, H1, app_assoc|]. split.
    + apply Forall_app. now split.
    + intros Hnil. assert (Hg1 : charlist g1 = []).
      { rewrite Hnil in H2. symmetry in H2. now apply app_eq_nil in H2. }
      rewrite (Z2 Hnil). apply Z1. assumption.
Qed.

(** X9.  What the reading loop leaves behind when it ends normally.  Every
    record is as lines 85 and 90 make it: its name has at least one
    character and no capital letter, [namesize] is the length of the name,
    the flag is 0 or 1 and no offset is set.  [maxnamesize] is the largest
    [namesize] in the list.  And if the list is empty, nothing at all has
    changed: no range is pending and [maxnamesize] is 0. *)
Theorem X9_extractor_leaves_well_formed_records (input : str) (g : globals) :
  extract input = Ok g ->
  (forall c, In c (charlist g) ->
     exists n, name c = Some n /\ 1 <= len n /\ lower n = n /\
               namesize c = len n /\ namesize c <= maxnamesize g /\
               (combining c = 0 \/ combining c = 1) /\ nameoffset c = None) /\
  maxnamesize g = max_namesize (charlist g) /\
  (charlist g = [] -> g = initial).
Proof.
  intros He. pose proof (extract_inv _ _ He) as [_ Hmax].
  destruct (read_loop_made _ _ _ He) as (new & Hc & Hm & Hz).
  cbn [charlist initial app] in Hc. subst new. repeat split; trivial.
  intros c Hc. rewrite Forall_forall in Hm.
  destruct (Hm c Hc) as (u & n & comb & -> & Hlen & Hlow).
  exists n. cbn [name namesize combining nameoffset codepoint_init]. repeat split; trivial.
  - rewrite Hmax. apply (namesize_le_max _ _ Hc).
  - destruct comb; auto.
Qed.

Lemma X9_extractor_leaves_well_formed_records_witness :
  (forall c, In c (charlist sample_globals) ->
     exists n, name c = Some n /\ 1 <= len n /\ lower n = n /\
               namesize c = len n /\ namesize c <= maxnamesize sample_globals /\
               (combining c = 0 \/ combining c = 1) /\ nameoffset c = None) /\
  maxnamesize sample_globals = max_namesize (charlist sample_globals) /\
  (charlist sample_globals = [] -> sample_globals = initial).
Proof.
  apply (X9_extractor_leaves_well_formed_records sample sample_globals).
  vm_compute. reflexivity.
Defined.

Lemma readlines_nil (s : str) : readlines s = [] -> s = [].
Proof.
  destruct s as [|c s]; [reflexivity|]. cbn [readlines].
  destruct (Ascii.eqb c "010"); [discriminate|].
  destruct (readlines s); discriminate.
Qed.

(** Reading a stream that continues after a newline: the lines up to the
    newline, then the lines of the rest. *)
Lemma readlines_app (a b : str) :
  readlines (a ++ nl ++ b) = readlines (a ++ nl) ++ readlines b.
Proof.
  induction a as [|c a IH]; [reflexivity|].
  cbn [app readlines]. destruct (Ascii.eqb c "010").
  - cbn [app] in IH. now rewrite IH.
  - cbn [app] in IH. rewrite IH.
    destruct (readlines (a ++ nl)) as [|l ls] eqn:E; [|reflexivity].
    apply readlines_nil in E. now destruct a.
Qed.

(** X10.  Reading is incremental.  For an input cut after any of its
    newlines, the reading loop on the whole input is the reading loop on
    the first part, continued on the lines of the second part from the
    globals the first part left.  The loop only ever appends: if the whole
    input is read without an exception, so is the first part, and its
    records are the first records of the whole, in the same order. *)
Theorem X10_reading_is_incremental (a b : str) :
  extract (a ++ nl ++ b) = (g <- extract (a ++ nl) ;; read_loop (readlines b) g) /\
  (forall g', extract (a ++ nl ++ b) = Ok g' ->
     exists g new, extract (a ++ nl) = Ok g /\ charlist g' = charlist g ++ new).
Proof.
  assert (H : extract (a ++ nl ++ b) =
              (g <- extract (a ++ nl) ;; read_loop (readlines b) g)).
  { unfold extract. now rewrite readlines_app, read_loop_app. }
  split; [exact H|]. intros g' Hg'. rewrite H in Hg'.
  destruct (extract (a ++ nl)) as [g|]; cbn [bind] in Hg'; [|discriminate].
  destruct (read_loop_made _ _ _ Hg') as (new & Hc & _).
  now exists g, new.
Qed.

Lemma X10_reading_is_incremental_witness :
  extract (lit "0041;A;Lu;0" ++ nl ++ line_last ++ nl) =
    (g <- extract (lit "0041;A;Lu;0" ++ nl) ;; read_loop (readlines (line_last ++ nl)) g) /\
  exists g new, extract (lit "0041;A;Lu;0" ++ nl) = Ok g /\
    charlist {| charlist := charlist one_record; maxnamesize := 1; rstart := Some 259 |} =
    charlist g ++ new.
Proof.
  destruct (X10_reading_is_incremental (lit "0041;A;Lu;0") (line_last ++ nl)) as [H1 H2].
  split; [exact H1|]. apply H2. reflexivity.
Defined.

(** ** The heap as it is printed *)

Lemma xrange3_76 (n : Z) :
  xrange3 0 n 76 = map (fun k => Z.of_nat (k * 76)) (seq 0 (Z.to_nat ((n + 75) / 76))).
Proof.
  unfold xrange3. cbn [Z.ltb Z.compare].
  replace (n - 0 + 76 - 1) with (n + 75) by lia.
  apply map_ext. intros k. lia.
Qed.

(** A slice of 76 characters from an index inside the string. *)
Lemma slice_76 (s : str) (i : nat) :
  (i <= List.length s)%nat ->
  slice s (Z.of_nat i) (Z.of_nat i + 76) = firstn 76 (skipn i s).
Proof.
  intros Hi. unfold slice. pose proof (len_nonneg s) as Hs.
  rewrite !clamp_cases by lia. unfold len in *.
  replace (Z.to_nat (Z.min _ (Z.of_nat i))) with i by lia.
  destruct (Z.le_gt_cases (Z.of_nat i + 76) (Z.of_nat (List.length s))) as [H|H].
  - f_equal. lia.
  - replace (Z.to_nat _) with (List.length (skipn i s)) by (rewrite length_skipn; lia).
    rewrite firstn_all. symmetry. apply firstn_all2. rewrite length_skipn. lia.
Qed.

Lemma chunks_concat (m : nat) :
  forall s : str,
    (List.length s <= m * 76)%nat ->
    List.concat (map (fun k => firstn 76 (skipn (k * 76) s)) (seq 0 m)) = s.
Proof.
  induction m as [|m IH]; intros s Hs.
  - destruct s; [reflexivity | cbn in Hs; lia].
  - cbn [seq map List.concat]. rewrite <- seq_shift, map_map.
    transitivity (firstn 76 s ++ skipn 76 s); [|apply firstn_skipn].
    f_equal.
    rewrite <- (IH (skipn 76 s)) at 1 by (rewrite length_skipn; lia).
    f_equal. apply map_ext. intros k.
    replace (S k * 76)%nat with (k * 76 + 76)%nat by lia.
    now rewrite skipn_skipn.
Qed.

Lemma nth_error_map_seq {A} (f : nat -> A) (m k : nat) (x : A) :
  nth_error (map f (seq 0 m)) k = Some x -> (k < m)%nat /\ x = f k.
Proof.
  rewrite nth_error_map, nth_error_seq.
  destruct (Nat.ltb_spec k m) as [Hlt|]; [|discriminate]. cbn [option_map Nat.add].
  intros Hx. split; [assumption | congruence].
Qed.

Lemma heap_lines_chunks (s : str) :
  heap_lines s =
  map (fun k => firstn 76 (skipn (k * 76) s))
      (seq 0 (Z.to_nat ((len s + 75) / 76))).
Proof.
  unfold heap_lines. rewrite xrange3_76, map_map. apply map_ext_in.
  intros k Hk. apply in_seq in Hk. apply slice_76.
  pose proof (Z.div_mod (len s + 75) 76 ltac:(lia)).
  pose proof (Z.mod_pos_bound (len s + 75) 76 ltac:(lia)).
  unfold len in *. lia.
Qed.

(** X11.  The heap is printed in full and in order, 76 characters to a
    line.  The pieces of lines 126-127, put end to end, are the heap;
    there are as many of them as the length of the heap divided by 76,
    rounded up (none for an empty heap); each has 76 characters, except
    that the last may have fewer but never none; and the printed text is
    the table followed by these pieces, each closed by a backslash and a
    newline, and the closing quote. *)
Theorem X11_heap_is_printed_whole_in_lines_of_76 (cl : list codepoint) (nameheap : str) :
  List.concat (heap_lines nameheap) = nameheap /\
  len (heap_lines nameheap) = (len nameheap + 75) / 76 /\
  (forall k l, nth_error (heap_lines nameheap) k = Some l ->
     1 <= len l <= 76 /\
     (Z.of_nat k + 1 < len (heap_lines nameheap) -> len l = 76)) /\
  output cl nameheap =
    table_text cl
    ++ List.concat (map (fun l => l ++ backslash ++ nl) (heap_lines nameheap))
    ++ dquote ++ lit ";" ++ nl.
Proof.
  pose proof (len_nonneg nameheap) as Hn.
  pose proof (Z.div_mod (len nameheap + 75) 76 ltac:(lia)) as Hd.
  pose proof (Z.mod_pos_bound (len nameheap + 75) 76 ltac:(lia)) as Hm.
  assert (Hlen : len (heap_lines nameheap) = (len nameheap + 75) / 76).
  { unfold len at 1. rewrite heap_lines_chunks, length_map, length_seq. lia. }
  split; [|split; [exact Hlen|split]].
  - rewrite heap_lines_chunks. apply chunks_concat. unfold len in *. lia.
  - intros k l Hk. rewrite Hlen. rewrite heap_lines_chunks in Hk.
    apply nth_error_map_seq in Hk as [Hlt ->].
    unfold len in *. rewrite !length_firstn, !length_skipn. lia.
  - unfold output, table_text, heap_lines. rewrite map_map, <- !app_assoc. reflexivity.
Qed.

(** ** The size of the heap *)

Lemma place_total (c c' : codepoint) (h h' : str) :
  place c h = Ok (c', h') ->
  name c' = None /\
  len h' <= len h + match name c with Some n => len n | None => 0 end.
Proof.
  unfold place. destruct (name c) as [n|]; [|discriminate].
  pose proof (len_nonneg n).
  destruct (find h n =? -1); intros [= <- <-]; cbn [assigned name];
    rewrite ?len_app; split; trivial; lia.
Qed.

(** Each pass moves name lengths from the records to the heap, or drops
    them. *)
Lemma heap_pass_total (size : Z) (cl : list codepoint) :
  forall h cl' h',
    heap_pass size cl h = Ok (cl', h') ->
    len h' + names_total cl' <= len h + names_total cl.
Proof.
  induction cl as [|c cl IH]; intros h cl' h'; cbn [heap_pass].
  - intros [= <- <-]. lia.
  - destruct (negb (namesize c =? size)).
    + destruct (heap_pass size cl h) as [[l hh]|] eqn:E; cbn [bind fst snd]; [|discriminate].
      intros [= <- <-]. specialize (IH _ _ _ E).
      unfold names_total in *. cbn [map fold_right]. lia.
    + destruct (place c h) as [[c1 h1]|] eqn:Ep; cbn [bind fst snd]; [|discriminate].
      destruct (heap_pass size cl h1) as [[l hh]|] eqn:E; cbn [bind fst snd]; [|discriminate].
      intros [= <- <-]. specialize (IH _ _ _ E).
      destruct (place_total _ _ _ _ Ep) as [Hn Hl].
      unfold names_total in *. cbn [map fold_right]. rewrite Hn. lia.
Qed.

Lemma heap_loop_total (sizes : list Z) :
  forall cl h cl' h',
    heap_loop sizes cl h = Ok (cl', h') ->
    len h' + names_total cl' <= len h + names_total cl.
Proof.
  induction sizes as [|s sizes IH]; intros cl h cl' h'; cbn [heap_loop].
  - intros [= <- <-]. lia.
  - destruct (heap_pass s cl h) as [[l hh]|] eqn:E; cbn [bind fst snd]; [|discriminate].
    intros H. specialize (IH _ _ _ _ H). apply heap_pass_total in E. lia.
Qed.

Lemma names_total_nonneg (cl : list codepoint) : 0 <= names_total cl.
Proof.
  induction cl as [|c cl IH]; unfold names_total in *; cbn [map fold_right]; [lia|].
  destruct (name c) as [n|]; [pose proof (len_nonneg n)|]; lia.
Qed.

Lemma names_total_fresh (cl : list codepoint) :
  Forall fresh cl -> names_total cl = sum_namesize cl.
Proof.
  induction 1 as [|c cl (n & Hn & Hs) _ IH]; [reflexivity|].
  unfold names_total, sum_namesize in *. cbn [map fold_right]. rewrite Hn, Hs, IH.
  reflexivity.
Qed.

Lemma max_namesize_le_bound (cl : list codepoint) (b : Z) :
  0 <= b -> Forall (fun c => namesize c <= b) cl -> max_namesize cl <= b.
Proof.
  intros Hb. induction 1 as [|c cl Hc _ IH]; unfold max_namesize in *;
    cbn [map fold_right]; lia.
Qed.

(** X12.  How long the heap is.  For the records of an input read without
    an exception, the heap is at least as long as the longest name and at
    most as long as all names together; it is empty exactly when there is
    no record. *)
Theorem X12_heap_length_bounds (input : str) (g : globals) :
  extract input = Ok g ->
  exists cl' heap,
    build_nameheap (charlist g) (maxnamesize g) = Ok (cl', heap) /\
    maxnamesize g <= len heap <= sum_namesize (charlist g) /\
    (heap = [] <-> charlist g = []).
Proof.
  intros He. pose proof (extract_inv _ _ He) as Hinv.
  destruct (extracted_fresh _ Hinv) as [Hf Hs].
  destruct (build_nameheap_placed _ _ Hf Hs) as (cl' & heap & Hb & H2).
  exists cl', heap. split; [assumption|].
  assert (Hlow : maxnamesize g <= len heap).
  { destruct Hinv as [_ ->]. apply max_namesize_le_bound; [apply len_nonneg|].
    apply Forall_forall. intros c Hc. apply In_nth_error in Hc as [i Hi].
    destruct (Forall2_nth_error_l _ _ _ H2 i c Hi) as (c' & _ & n & k & Hn & _ & Hocc).
    rewrite Forall_forall in Hf. destruct (Hf c (nth_error_In _ _ Hi)) as (n' & Hn' & ->).
    rewrite Hn in Hn'. injection Hn' as <-. apply occurs_at_bound in Hocc. lia. }
  assert (Hup : len heap <= sum_namesize (charlist g)).
  { unfold build_nameheap in Hb. apply heap_loop_total in Hb.
    rewrite (names_total_fresh _ Hf) in Hb. pose proof (names_total_nonneg cl').
    change (len (@nil ascii)) with 0 in Hb. lia. }
  split; [split; assumption|]. split.
  - intros ->. change (len (@nil ascii)) with 0 in Hlow.
    destruct (charlist g) as [|c cl] eqn:E; [reflexivity|].
    rewrite Forall_forall in Hs. specialize (Hs c (or_introl eq_refl)). lia.
  - intros E. rewrite E in Hup. change (sum_namesize []) with 0 in Hup.
    pose proof (len_nonneg heap). destruct heap; [reflexivity|].
    unfold len in *. cbn [List.length] in *. lia.
Qed.

Lemma X12_heap_length_bounds_witness :
  exists cl' heap,
    build_nameheap (charlist sample_globals) (maxnamesize sample_globals) = Ok (cl', heap) /\
    maxnamesize sample_globals <= len heap <= sum_namesize (charlist sample_globals) /\
    (heap = [] <-> charlist sample_globals = []).
Proof.
  apply (X12_heap_length_bounds sample sample_globals). vm_compute. reflexivity.
Defined.

(** ** Each record is placed once, where the loops find it *)

Lemma place_grows (c c' : codepoint) (h h' : str) :
  place c h = Ok (c', h') -> exists ext, h' = h ++ ext.
Proof.
  unfold place. destruct (name c) as [n|]; [|discriminate].
  destruct (find h n =? -1); intros [= _ <-]; [now exists n | exists []; now rewrite app_nil_r].
Qed.

Lemma heap_pass_grows (size : Z) (cl : list codepoint) :
  forall h cl' h', heap_pass size cl h = Ok (cl', h') -> exists ext, h' = h ++ ext.
Proof.
  induction cl as [|c cl IH]; intros h cl' h'; cbn [heap_pass].
  - intros [= _ <-]. exists []. now rewrite app_nil_r.
  - destruct (negb (namesize c =? size)).
    + destruct (heap_pass size cl h) as [[l hh]|] eqn:E; cbn [bind fst snd]; [|discriminate].
      intros [= _ <-]. eapply IH; eassumption.
    + destruct (place c h) as [[c1 h1]|] eqn:Ep; cbn [bind fst snd]; [|discriminate].
      destruct (heap_pass size cl h1) as [[l hh]|] eqn:E; cbn [bind fst snd]; [|discriminate].
      intros [= _ <-]. destruct (place_grows _ _ _ _ Ep) as [e1 ->].
      destruct (IH _ _ _ E) as [e2 ->]. exists (e1 ++ e2). now rewrite app_assoc.
Qed.

(** A pass that meets no record of its size changes nothing. *)
Lemma heap_pass_none (size : Z) (cl : list codepoint) (h : str) :
  Forall (fun c => namesize c <> size) cl -> heap_pass size cl h = Ok (cl, h).
Proof.
  induction 1 as [|c cl Hc _ IH]; cbn [heap_pass]; [reflexivity|].
  destruct (Z.eqb_spec (namesize c) size); [contradiction|]. cbn [negb].
  now rewrite IH.
Qed.

(** The pass for the size of the record at index [b], in three parts: the
    records before it, the record itself, the records after it. *)
Lemma heap_pass_cut (size : Z) (cl : list codepoint) :
  forall heap cl' heap' b c,
    heap_pass size cl heap = Ok (cl', heap') ->
    nth_error cl b = Some c -> namesize c = size ->
    exists pfx hb c' hb' sfx,
      heap_pass size (firstn b cl) heap = Ok (pfx, hb) /\
      place c hb = Ok (c', hb') /\
      heap_pass size (skipn (S b) cl) hb' = Ok (sfx, heap') /\
      cl' = pfx ++ c' :: sfx /\ List.length pfx = b.
Proof.
  induction cl as [|d cl IH]; intros heap cl' heap' b c Hp Hb Hc.
  - destruct b; discriminate.
  - cbn [heap_pass] in Hp. destruct b as [|b]; cbn [nth_error] in Hb.
    + injection Hb as ->.
      replace (namesize c =? size) with true in Hp by (symmetry; now apply Z.eqb_eq).
      cbn [negb] in Hp.
      destruct (place c heap) as [[c1 h1]|] eqn:E; cbn [bind fst snd] in Hp; [|discriminate].
      destruct (heap_pass size cl h1) as [[l h]|] eqn:E2; cbn [bind fst snd] in Hp;
        [|discriminate].
      injection Hp as <- <-. exists [], heap, c1, h1, l. cbn [firstn skipn heap_pass app].
      repeat split; trivial.
    + cbn [firstn skipn heap_pass]. destruct (negb (namesize d =? size)).
      * destruct (heap_pass size cl heap) as [[l h]|] eqn:E; cbn [bind fst snd] in Hp;
          [|discriminate].
        injection Hp as <- <-.
        destruct (IH _ _ _ _ _ E Hb Hc) as (pfx & hb & c' & hb' & sfx & H1 & H2 & H3 & H4 & H5).
        rewrite H1. cbn [bind fst snd]. exists (d :: pfx), hb, c', hb', sfx.
        repeat split; trivial; [now rewrite H4 | cbn [List.length]; now rewrite H5].
      * destruct (place d heap) as [[d1 h1]|]; cbn [bind fst snd] in Hp |- *; [|discriminate].
        destruct (heap_pass size cl h1) as [[l h]|] eqn:E; cbn [bind fst snd] in Hp;
          [|discriminate].
        injection Hp as <- <-.
        destruct (IH _ _ _ _ _ E Hb Hc) as (pfx & hb & c' & hb' & sfx & H1 & H2 & H3 & H4 & H5).
        rewrite H1. cbn [bind fst snd]. exists (d1 :: pfx), hb, c', hb', sfx.
        repeat split; trivial; [now rewrite H4 | cbn [List.length]; now rewrite H5].
Qed.

(** The loops come to every record with the record still untouched; what
    lines 106-110 make of it then is what the list holds at the end, and
    the heap at the end is the heap of that moment, grown. *)
Lemma reach_then_place (cl : list codepoint) (maxsize : Z) (b : nat) (B : codepoint) :
  Forall fresh cl ->
  Forall (fun c => 1 <= namesize c <= maxsize) cl ->
  nth_error cl b = Some B ->
  exists cl' heap hb B' hb' ext,
    build_nameheap cl maxsize = Ok (cl', heap) /\
    reach cl maxsize b = Ok (B, hb) /\
    place B hb = Ok (B', hb') /\
    nth_error cl' b = Some B' /\
    heap = hb' ++ ext.
Proof.
  intros Hf Hs Hb.
  assert (HsB : 1 <= namesize B <= maxsize).
  { rewrite Forall_forall in Hs. apply Hs. eapply nth_error_In; eassumption. }
  set (sB := namesize B) in *.
  destruct (heap_loop_inv (Z.to_nat (maxsize - sB)) sB cl cl [] Hf) as (cl1 & h1 & H1 & F1).
  { apply Forall2_diag. eapply Forall_impl; [|exact Hs]. intros c Hc. cbv beta in Hc.
    split; intros; [lia | reflexivity]. }
  replace (sB + Z.of_nat (Z.to_nat (maxsize - sB))) with maxsize in H1 by lia.
  cbn [app] in H1, F1.
  destruct (heap_pass_inv sB cl Hf cl1 h1 F1) as (cl2 & e2 & Hp & F2).
  destruct (heap_loop_inv (Z.to_nat (sB - 1)) 0 cl cl2 (h1 ++ e2) Hf) as (cl' & e3 & Hl & F3).
  { now replace (0 + Z.of_nat (Z.to_nat (sB - 1))) with (sB - 1) by lia. }
  replace (0 + Z.of_nat (Z.to_nat (sB - 1))) with (sB - 1) in Hl by lia.
  assert (Hbuild : build_nameheap cl maxsize = Ok (cl', (h1 ++ e2) ++ e3)).
  { unfold build_nameheap.
    replace maxsize with (sB + Z.of_nat (Z.to_nat (maxsize - sB))) at 1 by lia.
    rewrite xrange3_desc_split by lia.
    replace (sB + Z.of_nat (Z.to_nat (maxsize - sB))) with maxsize by lia.
    rewrite heap_loop_app, H1. cbn [bind fst snd].
    rewrite xrange3_desc_step by lia. cbn [heap_loop]. rewrite Hp. exact Hl. }
  destruct (Forall2_nth_error_l _ _ _ F1 b B Hb) as (B1 & HB1 & _ & HB1').
  rewrite (HB1' ltac:(subst sB; lia)) in HB1. clear B1 HB1'.
  destruct (heap_pass_cut sB cl1 h1 cl2 _ b B Hp HB1 eq_refl)
    as (pfx & hb & B' & hb' & sfx & Hpre & Hplace & Hsuf & Hcl2 & Hlen).
  destruct (heap_pass_grows _ _ _ _ _ Hsuf) as [e4 He4].
  exists cl', ((h1 ++ e2) ++ e3), hb, B', hb', (e4 ++ e3).
  split; [exact Hbuild|]. split; [|split; [exact Hplace|split]].
  - unfold reach, getitem. rewrite Hb. cbn [bind]. fold sB. rewrite H1. cbn [bind fst snd].
    rewrite Hpre. cbn [bind fst snd]. now rewrite HB1.
  - assert (HB2 : nth_error cl2 b = Some B').
    { rewrite Hcl2, nth_error_app2 by lia. rewrite Hlen, Nat.sub_diag. reflexivity. }
    apply (heap_loop_keeps _ _ _ _ _ _ _ Hl HB2).
    apply Forall_forall. intros x Hx. apply xrange3_desc_In in Hx.
    rewrite Forall_forall in Hf. destruct (Hf B (nth_error_In _ _ Hb)) as (n & Hn & _).
    destruct (place_spec B hb n Hn) as [(k & Hpl & _) | [Hpl _]];
      rewrite Hpl in Hplace; injection Hplace as <- _; cbn [assigned namesize];
      subst sB; lia.
  - rewrite He4, app_assoc. reflexivity.
Qed.

(** X13.  Each record gets its offset once, from the heap as it stands
    when the loops come to it.  The record is still untouched then; the
    offset it is printed with is what [find] returns for its name on that
    heap, or the length of that heap when [find] returns -1, in which case
    the name is appended first; and afterwards the heap only grows at its
    end. *)
Theorem X13_offset_is_set_once_when_reached
        (input : str) (g : globals) (b : nat) (B : codepoint) (n : str) :
  extract input = Ok g ->
  nth_error (charlist g) b = Some B -> name B = Some n ->
  exists cl' heap hb off,
    build_nameheap (charlist g) (maxnamesize g) = Ok (cl', heap) /\
    reach (charlist g) (maxnamesize g) b = Ok (B, hb) /\
    nth_error cl' b = Some (assigned B off) /\
    ((find hb n <> -1 /\ off = find hb n /\ exists ext, heap = hb ++ ext) \/
     (find hb n = -1 /\ off = len hb /\ exists ext, heap = hb ++ n ++ ext)).
Proof.
  intros He Hb Hn. pose proof (extract_inv _ _ He) as Hinv.
  destruct (extracted_fresh _ Hinv) as [Hf Hs].
  destruct (reach_then_place _ _ b B Hf Hs Hb)
    as (cl' & heap & hb & B' & hb' & ext & H1 & H2 & H3 & H4 & H5).
  unfold place in H3. rewrite Hn in H3. cbv zeta in H3.
  destruct (Z.eqb_spec (find hb n) (-1)) as [E|E]; injection H3 as <- <-.
  - exists cl', heap, hb, (len hb). repeat split; trivial. right.
    repeat split; trivial. exists ext. now rewrite H5, <- app_assoc.
  - exists cl', heap, hb, (find hb n). repeat split; trivial. left.
    repeat split; trivial. now exists ext.
Qed.

Lemma X13_offset_is_set_once_when_reached_witness :
  exists cl' heap hb off,
    build_nameheap (charlist overlap_globals) (maxnamesize overlap_globals) = Ok (cl', heap) /\
    reach (charlist overlap_globals) (maxnamesize overlap_globals) 1 =
      Ok (codepoint_init 66 (lit "yab") false, hb) /\
    nth_error cl' 1 = Some (assigned (codepoint_init 66 (lit "yab") false) off) /\
    ((find hb (lit "yab") <> -1 /\ off = find hb (lit "yab") /\ exists ext, heap = hb ++ ext) \/
     (find hb (lit "yab") = -1 /\ off = len hb /\ exists ext, heap = hb ++ lit "yab" ++ ext)).
Proof.
  apply (X13_offset_is_set_once_when_reached overlap_input overlap_globals 1
           (codepoint_init 66 (lit "yab") false) (lit "yab")); reflexivity.
Defined.

(** X14.  The heap begins with the first of the longest names.  The first
    record whose name has the greatest length is placed on the empty heap:
    its offset is 0 and its name is the beginning of the heap. *)
Theorem X14_heap_begins_with_first_longest_name
        (input : str) (g : globals) (b : nat) (B : codepoint) (n : str) :
  extract input = Ok g ->
  nth_error (charlist g) b = Some B -> name B = Some n ->
  namesize B = maxnamesize g ->
  (forall j c, (j < b)%nat -> nth_error (charlist g) j = Some c ->
               namesize c < maxnamesize g) ->
  exists cl' ext,
    build_nameheap (charlist g) (maxnamesize g) = Ok (cl', n ++ ext) /\
    nth_error cl' b = Some (assigned B 0).
Proof.
  intros He Hb Hn Hmax Hbefore. pose proof (extract_inv _ _ He) as Hinv.
  destruct (extracted_fresh _ Hinv) as [Hf Hs].
  destruct (reach_then_place _ _ b B Hf Hs Hb)
    as (cl' & heap & hb & B' & hb' & ext & H1 & H2 & H3 & H4 & H5).
  assert (Hhb : hb = []).
  { unfold reach, getitem in H2. rewrite Hb in H2. cbn [bind] in H2.
    rewrite Hmax, xrange3_desc_nil in H2 by lia. cbn [heap_loop bind fst snd] in H2.
    rewrite heap_pass_none in H2.
    - cbn [bind fst snd] in H2. rewrite Hb in H2. now injection H2 as <-.
    - apply Forall_forall. intros c Hc. apply In_nth_error in Hc as [j Hj].
      assert (Hjb : (j < b)%nat).
      { assert (Hsome : nth_error (firstn b (charlist g)) j <> None) by congruence.
        apply nth_error_Some in Hsome. rewrite length_firstn in Hsome. lia. }
      rewrite nth_error_firstn_lt in Hj by assumption.
      specialize (Hbefore j c Hjb Hj). lia. }
  subst hb. unfold place in H3. rewrite Hn in H3. cbv zeta in H3.
  assert (Hfind : find [] n = -1).
  { rewrite Forall_forall in Hs. specialize (Hs B (nth_error_In _ _ Hb)).
    rewrite Forall_forall in Hf. destruct (Hf B (nth_error_In _ _ Hb)) as (n' & Hn' & Hsz).
    rewrite Hn in Hn'. injection Hn' as <-.
    destruct n; [unfold len in Hsz; cbn in Hsz; lia | reflexivity]. }
  rewrite Hfind in H3. cbn [Z.eqb app] in H3. injection H3 as <- <-.
  exists cl', ext. rewrite <- H5. split; assumption.
Qed.

Lemma X14_heap_begins_with_first_longest_name_witness :
  exists cl' ext,
    build_nameheap (charlist overlap_globals) (maxnamesize overlap_globals) =
      Ok (cl', lit "abx" ++ ext) /\
    nth_error cl' 0 = Some (assigned (codepoint_init 65 (lit "abx") false) 0).
Proof.
  apply (X14_heap_begins_with_first_longest_name overlap_input overlap_globals 0
           (codepoint_init 65 (lit "abx") false) (lit "abx")); try reflexivity.
  intros j c Hj. lia.
Defined.

(** ** No character of the heap is left over *)

Lemma Forall2_nth_error_r {A B} (R : A -> B -> Prop) (l : list A) (l' : list B) :
  Forall2 R l l' ->
  forall i y, nth_error l' i = Some y -> exists x, nth_error l i = Some x /\ R x y.
Proof.
  induction 1 as [|a b l l' Hab _ IH]; intros [|i] y; cbn [nth_error]; try discriminate.
  - intros [= <-]. now exists a.
  - apply IH.
Qed.

Lemma heap_pass_keeps (size : Z) (cl cl' : list codepoint) (h h' : str)
      (i : nat) (c : codepoint) :
  heap_pass size cl h = Ok (cl', h') ->
  nth_error cl i = Some c -> namesize c <> size ->
  nth_error cl' i = Some c.
Proof.
  intros Hp Hc Hne. apply (heap_loop_keeps [size] cl cl' h h' i c); trivial.
  - cbn [heap_loop]. now rewrite Hp.
  - constructor; [assumption | constructor].
Qed.

(** The part of the heap that a pass appends lies in the spans of the
    records that the pass has placed. *)
Lemma heap_pass_new (size : Z) (cl : list codepoint) :
  forall h cl' h',
    heap_pass size cl h = Ok (cl', h') ->
    Forall (fun c => namesize c = size -> fresh c) cl ->
    forall p, len h <= p < len h' ->
      exists i c off,
        nth_error cl' i = Some c /\ name c = None /\ nameoffset c = Some off /\
        namesize c = size /\ off <= p < off + namesize c.
Proof.
  induction cl as [|c cl IH]; intros h cl' h' Hp Hfr p Hpos; cbn [heap_pass] in Hp.
  - injection Hp as _ <-. lia.
  - inversion Hfr as [|? ? Hc Hrest]; subst.
    destruct (Z.eqb_spec (namesize c) size) as [E|E]; cbn [negb] in Hp.
    + destruct (Hc E) as (n & Hn & Hsz).
      destruct (place c h) as [[c1 h1]|] eqn:Ep; cbn [bind fst snd] in Hp; [|discriminate].
      destruct (heap_pass size cl h1) as [[l hh]|] eqn:E2; cbn [bind fst snd] in Hp;
        [|discriminate].
      injection Hp as <- <-.
      destruct (Z.lt_ge_cases p (len h1)) as [Hin|Hout].
      * destruct (place_spec c h n Hn) as [(k & Hpl & _) | [Hpl _]];
          rewrite Hpl in Ep; injection Ep as <- <-; [lia|].
        exists 0%nat, (assigned c (len h)), (len h).
        cbn [nth_error assigned name nameoffset namesize]. rewrite len_app in Hin.
        repeat split; trivial; lia.
      * destruct (IH _ _ _ E2 Hrest p ltac:(lia)) as (i & d & off & H1 & H2).
        now exists (S i), d, off.
    + destruct (heap_pass size cl h) as [[l hh]|] eqn:E2; cbn [bind fst snd] in Hp;
        [|discriminate].
      injection Hp as <- <-.
      destruct (IH _ _ _ E2 Hrest p Hpos) as (i & d & off & H1 & H2).
      now exists (S i), d, off.
Qed.

Lemma heap_pass_covered (size : Z) (cl0 cl cl' : list codepoint) (h h' : str) :
  Forall fresh cl0 ->
  Forall2 (done_above size h) cl0 cl ->
  covered h cl ->
  heap_pass size cl h = Ok (cl', h') ->
  covered h' cl'.
Proof.
  intros Hf F Hcov Hp p Hpos.
  destruct (Z.lt_ge_cases p (len h)) as [Hold|Hnew].
  - destruct (Hcov p ltac:(lia)) as (i & c & off & Hi & Hn & Hrest).
    exists i, c, off. split; [|split; assumption].
    apply (heap_pass_keeps _ _ _ _ _ _ _ Hp Hi).
    destruct (Forall2_nth_error_r _ _ _ F i c Hi) as (o & Ho & Hd).
    pose proof (done_above_namesize _ _ _ _ Hd) as Hsz. destruct Hd as [_ Hd].
    intros E. rewrite Forall_forall in Hf.
    destruct (Hf o (nth_error_In _ _ Ho)) as (n & Hno & _).
    rewrite (Hd ltac:(lia)) in Hn. congruence.
  - destruct (heap_pass_new _ _ _ _ _ Hp) with (p := p) as (i & c & off & H1 & H2 & H3 & _ & H4).
    + apply Forall_forall. intros c Hc E. apply In_nth_error in Hc as [i Hi].
      destruct (Forall2_nth_error_r _ _ _ F i c Hi) as (o & Ho & Hd).
      pose proof (done_above_namesize _ _ _ _ Hd) as Hsz. destruct Hd as [_ Hd].
      rewrite (Hd ltac:(lia)). rewrite Forall_forall in Hf.
      apply Hf. eapply nth_error_In; eassumption.
    + lia.
    + now exists i, c, off.
Qed.

Lemma heap_loop_covered (n : nat) :
  forall s cl0 cl heap cl' heap',
    Forall fresh cl0 ->
    Forall2 (done_above (s + Z.of_nat n) heap) cl0 cl ->
    covered heap cl ->
    heap_loop (xrange3 (s + Z.of_nat n) s (-1)) cl heap = Ok (cl', heap') ->
    covered heap' cl'.
Proof.
  induction n as [|n IH]; intros s cl0 cl heap cl' heap' Hf F Hcov Hl.
  - rewrite xrange3_desc_nil in Hl by lia. now injection Hl as <- <-.
  - rewrite xrange3_desc_step in Hl by lia. cbn [heap_loop] in Hl.
    destruct (heap_pass_inv _ _ Hf _ _ F) as (cl1 & e1 & Hp & F1).
    rewrite Hp in Hl. cbn [bind fst snd] in Hl.
    replace (s + Z.of_nat (S n) - 1) with (s + Z.of_nat n) in * by lia.
    apply (IH s cl0 cl1 (heap ++ e1) cl' heap' Hf F1); [|exact Hl].
    exact (heap_pass_covered _ cl0 cl cl1 heap (heap ++ e1) Hf F Hcov Hp).
Qed.

(** X15.  The heap holds nothing but names.  When the heap is built from
    the records of an input, every position of the heap lies in the span,
    offset to offset plus name length, of at least one record of the
    table. *)
Theorem X15_every_heap_position_is_in_a_span (input : str) (g : globals) :
  extract input = Ok g ->
  exists cl' heap,
    build_nameheap (charlist g) (maxnamesize g) = Ok (cl', heap) /\
    forall p, 0 <= p < len heap ->
      exists i c off,
        nth_error cl' i = Some c /\ nameoffset c = Some off /\
        off <= p < off + namesize c.
Proof.
  intros He. pose proof (extract_inv _ _ He) as Hinv.
  destruct (extracted_fresh _ Hinv) as [Hf Hs].
  destruct (build_nameheap_placed _ _ Hf Hs) as (cl' & heap & Hb & _).
  exists cl', heap. split; [assumption|].
  assert (Hm : 0 <= maxnamesize g).
  { destruct Hinv as [_ ->]. apply max_namesize_nonneg. }
  assert (Hcov : covered heap cl').
  { unfold build_nameheap in Hb.
    apply (heap_loop_covered (Z.to_nat (maxnamesize g)) 0 (charlist g) (charlist g) [] cl' heap);
      trivial.
    - apply Forall2_diag. rewrite Z.add_0_l, Z2Nat.id by lia.
      eapply Forall_impl; [|exact Hs]. intros c Hc. cbv beta in Hc.
      split; intros; [lia | reflexivity].
    - intros p Hp. change (len (@nil ascii)) with 0 in Hp. lia.
    - now rewrite Z.add_0_l, Z2Nat.id by lia. }
  intros p Hp. destruct (Hcov p Hp) as (i & c & off & H1 & _ & H2 & H3).
  now exists i, c, off.
Qed.

Lemma X15_every_heap_position_is_in_a_span_witness :
  exists cl' heap,
    build_nameheap (charlist sample_globals) (maxnamesize sample_globals) = Ok (cl', heap) /\
    forall p, 0 <= p < len heap ->
      exists i c off,
        nth_error cl' i = Some c /\ nameoffset c = Some off /\
        off <= p < off + namesize c.
Proof.
  apply (X15_every_heap_position_is_in_a_span sample sample_globals).
  vm_compute. reflexivity.
Defined.

(** ** The range pattern *)

Lemma lower_char_comma (c : ascii) : lower_char c = ","%char -> c = ","%char.
Proof. destruct c as [[] [] [] [] [] [] [] []]; cbn; intros H; try discriminate; reflexivity. Qed.

Lemma lower_char_space (c : ascii) : lower_char c = " "%char -> c = " "%char.
Proof. destruct c as [[] [] [] [] [] [] [] []]; cbn; intros H; try discriminate; reflexivity. Qed.

Lemma lower_char_gt (c : ascii) : lower_char c = ">"%char -> c = ">"%char.
Proof. destruct c as [[] [] [] [] [] [] [] []]; cbn; intros H; try discriminate; reflexivity. Qed.

Lemma span_nocomma_spec (s : str) :
  let (a, b) := span_nocomma s in
  s = a ++ b /\ ~ In ","%char a /\ (b = [] \/ exists b', b = ","%char :: b').
Proof.
  induction s as [|c s IH]; cbn [span_nocomma].
  - repeat split; auto.
  - destruct (Ascii.eqb_spec c ",") as [->|Hc].
    + repeat split; auto. right. now exists s.
    + destruct (span_nocomma s) as [a b]. destruct IH as (-> & Hno & Hb).
      repeat split; trivial. intros [H|H]; [now subst | contradiction].
Qed.

Lemma span_nocomma_app (label rest : str) :
  ~ In ","%char label -> span_nocomma (label ++ ","%char :: rest) = (label, ","%char :: rest).
Proof.
  induction label as [|c label IH]; intros Hno; cbn [app span_nocomma].
  - reflexivity.
  - destruct (Ascii.eqb_spec c ",") as [->|Hc]; [exfalso; apply Hno; now left|].
    rewrite IH; [reflexivity|]. intros H. apply Hno. now right.
Qed.

Lemma tail_matches_intro (kw word tail : str) :
  lower kw = word -> at_dollar tail = true ->
  tail_matches (lit ", " ++ kw ++ lit ">" ++ tail) (lit ", " ++ word ++ lit ">") = true.
Proof.
  intros Hkw Htail. unfold tail_matches.
  assert (Hlen : List.length (lit ", " ++ word ++ lit ">") =
                 List.length (lit ", " ++ kw ++ lit ">")).
  { subst word. unfold lower. rewrite !length_app, length_map. reflexivity. }
  rewrite Hlen.
  replace (lit ", " ++ kw ++ lit ">" ++ tail) with ((lit ", " ++ kw ++ lit ">") ++ tail)
    by now rewrite <- !app_assoc.
  rewrite firstn_app, firstn_all, Nat.sub_diag, app_nil_r.
  rewrite skipn_app, skipn_all, Nat.sub_diag. cbn [app skipn]. rewrite Htail, andb_true_r.
  apply list_eqb_eq. subst word. unfold lower. now rewrite !map_app.
Qed.

Lemma tail_matches_elim (rest word : str) :
  tail_matches rest (lit ", " ++ word ++ lit ">") = true ->
  exists kw tail,
    rest = lit ", " ++ kw ++ lit ">" ++ tail /\ lower kw = word /\ at_dollar tail = true.
Proof.
  unfold tail_matches. set (n := List.length _). intros H.
  apply andb_true_iff in H as [H1 H2]. apply list_eqb_eq in H1.
  assert (Hrest : rest = firstn n rest ++ skipn n rest) by (symmetry; apply firstn_skipn).
  revert H1 H2 Hrest. generalize (firstn n rest) as pre, (skipn n rest) as tail.
  clear n. intros pre tail H1 H2 ->.
  destruct pre as [|c1 [|c2 pre]]; try discriminate.
  cbn [lit list_ascii_of_string app lower map] in H1. injection H1 as Hc1 Hc2 H1.
  apply lower_char_comma in Hc1. apply lower_char_space in Hc2. subst c1 c2.
  destruct (nonempty_last pre) as (kw & c3 & ->).
  { intros ->. now destruct word. }
  rewrite map_app in H1. cbn [map] in H1. apply app_inj_tail in H1 as [H1 Hc3].
  apply lower_char_gt in Hc3. subst c3.
  exists kw, tail.
  repeat split; trivial. cbn [lit list_ascii_of_string app]. now rewrite <- !app_assoc.
Qed.

(** X16.  Which names line 81 takes for a range line.  A name matches
    exactly when it is <, a label of at least one character with no comma
    in it, a comma and a space, the word first or last in any mix of
    capitals, and >, with nothing after it but perhaps a final newline;
    and the group the match yields is that label. *)
Theorem X16_range_pattern_matches_exactly_the_markers (nm label : str) :
  re_match nm = Some label <->
  label <> [] /\ ~ In ","%char label /\
  exists kw tail,
    nm = lit "<" ++ label ++ lit ", " ++ kw ++ lit ">" ++ tail /\
    (lower kw = lit "first" \/ lower kw = lit "last") /\
    (tail = [] \/ tail = nl).
Proof.
  split.
  - unfold re_match. destruct nm as [|c s']; [discriminate|].
    destruct (Ascii.eqb_spec c "<") as [->|]; [|discriminate].
    pose proof (span_nocomma_spec s') as Hspan.
    destruct (span_nocomma s') as [l rest]. destruct Hspan as (-> & Hno & _).
    destruct l as [|l0 l]; [discriminate|].
    destruct (tail_matches rest (lit ", first>")) eqn:E1;
      [|destruct (tail_matches rest (lit ", last>")) eqn:E2; [|discriminate]];
      cbn [orb]; intros [= <-].
    + apply (tail_matches_elim rest (lit "first")) in E1 as (kw & tail & -> & Hkw & Ht).
      split; [discriminate|]. split; [assumption|]. exists kw, tail.
      repeat split; auto.
      destruct tail as [|t [|t' tail]]; [now left | right | discriminate].
      cbn [at_dollar] in Ht. apply Ascii.eqb_eq in Ht. now subst.
    + apply (tail_matches_elim rest (lit "last")) in E2 as (kw & tail & -> & Hkw & Ht).
      split; [discriminate|]. split; [assumption|]. exists kw, tail.
      repeat split; auto.
      destruct tail as [|t [|t' tail]]; [now left | right | discriminate].
      cbn [at_dollar] in Ht. apply Ascii.eqb_eq in Ht. now subst.
  - intros (Hne & Hno & kw & tail & -> & Hkw & Ht).
    assert (Hd : at_dollar tail = true) by (destruct Ht as [->| ->]; reflexivity).
    unfold re_match. cbn [lit list_ascii_of_string app Ascii.eqb Bool.eqb].
    change (","%char :: " "%char :: kw ++ lit ">" ++ tail)
      with (","%char :: (" "%char :: kw ++ lit ">" ++ tail)).
    rewrite (span_nocomma_app label _ Hno).
    destruct label as [|l0 label]; [contradiction|].
    destruct Hkw as [Hkw|Hkw].
    + pose proof (tail_matches_intro kw (lit "first") tail Hkw Hd) as H.
      cbn [lit list_ascii_of_string app] in H |- *. now rewrite H.
    + pose proof (tail_matches_intro kw (lit "last") tail Hkw Hd) as H.
      cbn [lit list_ascii_of_string app] in H |- *. rewrite H. now rewrite orb_true_r.
Qed.

Lemma X16_range_pattern_matches_exactly_the_markers_witness :
  re_match (lit "<CJK Ideograph, First>") = Some (lit "CJK Ideograph") /\
  exists kw tail,
    lit "<cjk ideograph, last>" =
      lit "<" ++ lit "cjk ideograph" ++ lit ", " ++ kw ++ lit ">" ++ tail /\
    (lower kw = lit "first" \/ lower kw = lit "last") /\
    (tail = [] \/ tail = nl).
Proof.
  split.
  - apply (X16_range_pattern_matches_exactly_the_markers
             (lit "<CJK Ideograph, First>") (lit "CJK Ideograph")).
    split; [discriminate|]. split.
    + cbn. intros H. repeat (destruct H as [H|H]; [discriminate|]). exact H.
    + exists (lit "First"), []. repeat split; auto.
  - apply (X16_range_pattern_matches_exactly_the_markers
             (lit "<cjk ideograph, last>") (lit "cjk ideograph")).
    reflexivity.
Defined.

(** ** The table entries *)

Lemma string_of_uint_numeral (d : Decimal.uint) :
  Forall (fun c => numeral c = true) (list_ascii_of_string (NilEmpty.string_of_uint d)).
Proof.
  induction d; cbn [NilEmpty.string_of_uint list_ascii_of_string]; constructor;
    trivial; reflexivity.
Qed.

Lemma repr_numeral (n : Z) : Forall (fun c => numeral c = true) (repr n).
Proof.
  unfold repr, lit, NilZero.string_of_int.
  assert (H : forall d, Forall (fun c => numeral c = true)
                          (list_ascii_of_string (NilZero.string_of_uint d))).
  { intros d. unfold NilZero.string_of_uint.
    destruct d; try apply string_of_uint_numeral. repeat constructor. }
  destruct (Z.to_int n) as [d|d]; [apply H|].
  cbn [list_ascii_of_string]. constructor; [reflexivity | apply H].
Qed.

Lemma lit_inj (a b : string) : lit a = lit b -> a = b.
Proof.
  unfold lit. intros H. apply (f_equal string_of_list_ascii) in H.
  now rewrite !string_of_list_ascii_of_string in H.
Qed.

Lemma to_int_proper (n : Z) :
  Z.to_int n <> Decimal.Pos Decimal.Nil /\ Z.to_int n <> Decimal.Neg Decimal.Nil.
Proof.
  destruct n as [|p|p]; cbn [Z.to_int]; split; try discriminate;
    intros [= H]; now apply (DecimalPos.Unsigned.to_uint_nonnil p).
Qed.

(** Printing an integer loses nothing. *)
Lemma repr_inj (a b : Z) : repr a = repr b -> a = b.
Proof.
  unfold repr. intros H. apply lit_inj in H.
  apply (f_equal NilZero.int_of_string) in H.
  destruct (to_int_proper a) as [Ha1 Ha2]. destruct (to_int_proper b) as [Hb1 Hb2].
  rewrite !NilZero.isi in H by assumption. injection H as H.
  apply (f_equal Z.of_int) in H. now rewrite !DecimalZ.of_to in H.
Qed.

Lemma repr_opt_inj (a b : option Z) : repr_opt a = repr_opt b -> a = b.
Proof.
  destruct a as [a|], b as [b|]; cbn [repr_opt]; intros H.
  - f_equal. now apply repr_inj.
  - pose proof (repr_numeral a) as Hn. rewrite H in Hn. inversion Hn. discriminate.
  - pose proof (repr_numeral b) as Hn. rewrite <- H in Hn. inversion Hn. discriminate.
  - reflexivity.
Qed.

Lemma numeral_plain (c : ascii) : numeral c = true -> plain c = true.
Proof. destruct c as [[] [] [] [] [] [] [] []]; cbn; intros H; try discriminate; reflexivity. Qed.

Lemma repr_plain (n : Z) : Forall (fun c => plain c = true) (repr n).
Proof.
  eapply Forall_impl; [|apply repr_numeral]. intros c. apply numeral_plain.
Qed.

Lemma repr_opt_plain (o : option Z) : Forall (fun c => plain c = true) (repr_opt o).
Proof. destruct o; [apply repr_plain | repeat constructor]. Qed.

(** Two texts cut at the first separator are cut at the same place. *)
Lemma app_sep_inj (sep : ascii) (a a' x x' : str) :
  plain sep = false ->
  Forall (fun c => plain c = true) a -> Forall (fun c => plain c = true) a' ->
  a ++ sep :: x = a' ++ sep :: x' -> a = a' /\ x = x'.
Proof.
  intros Hsep Ha. revert a'. induction Ha as [|c a Hc _ IH]; intros a' Ha' H.
  - destruct Ha' as [|c' a' Hc' _]; cbn [app] in H.
    + injection H as ->. auto.
    + injection H as <- _. congruence.
  - destruct Ha' as [|c' a' Hc' Ha']; cbn [app] in H.
    + injection H as -> _. congruence.
    + injection H as <- H. destruct (IH a' Ha' H) as [-> ->]. auto.
Qed.

(** X17.  A table entry tells its record.  Two records are printed as the
    same entry exactly when they agree on offset, name length, codepoint
    and combining flag (an unset offset is printed as None and is not
    taken for a number); and an entry never contains a newline, so every
    record is one line of the table. *)
Theorem X17_entry_determines_the_record (c1 c2 : codepoint) :
  (entry c1 = entry c2 <->
   nameoffset c1 = nameoffset c2 /\ namesize c1 = namesize c2 /\
   uchar c1 = uchar c2 /\ combining c1 = combining c2) /\
  ~ In "010"%char (entry c1).
Proof.
  split; [split|].
  - unfold entry. cbn [lit list_ascii_of_string app]. intros [= H].
    apply app_sep_inj in H as [Ho H]; [|reflexivity|apply repr_opt_plain..].
    apply app_sep_inj in H as [Hs H]; [|reflexivity|apply repr_plain..].
    apply app_sep_inj in H as [Hu H]; [|reflexivity|apply repr_plain..].
    apply app_sep_inj in H as [Hc _]; [|reflexivity|apply repr_plain..].
    repeat split; [now apply repr_opt_inj | now apply repr_inj..].
  - intros (H1 & H2 & H3 & H4). unfold entry. now rewrite H1, H2, H3, H4.
  - unfold entry. cbn [lit list_ascii_of_string app].
    assert (Hp : forall l, Forall (fun c => plain c = true) l -> ~ In "010"%char l).
    { intros l Hl Hin. rewrite Forall_forall in Hl. specialize (Hl _ Hin). discriminate. }
    intros [H|H]; [discriminate|].
    repeat (apply in_app_or in H as [H|H];
            [now apply (Hp _ (repr_opt_plain _)) in H || now apply (Hp _ (repr_plain _)) in H|];
            destruct H as [H|H]; [discriminate|]).
    contradiction.
Qed.

Lemma X17_entry_determines_the_record_witness :
  nameoffset (assigned rec_ab 0) = Some 0 /\ namesize (assigned rec_ab 0) = 2 /\
  uchar (assigned rec_ab 0) = 65 /\ combining (assigned rec_ab 0) = 0.
Proof.
  apply (X17_entry_determines_the_record (assigned rec_ab 0)
           {| uchar := 65; combining := 0; name := Some (lit "zz");
              namesize := 2; nameoffset := Some 0 |}).
  reflexivity.
Defined.

(** ** The characters of the names and of the heap *)

Lemma split_no_sep (sep : ascii) (s : str) :
  forall f, In f (split sep s) -> ~ In sep f.
Proof.
  induction s as [|c s IH]; intros f; cbn [split].
  - intros [<-|[]] [].
  - destruct (Ascii.eqb_spec c sep) as [->|Hc].
    + intros [<-|H]; [intros [] | now apply IH].
    + destruct (split sep s) as [|w ws].
      * intros [<-|[]] [H|[]]. now subst.
      * intros [<-|H].
        -- intros [H|H]; [now subst | apply (IH w); [now left | assumption]].
        -- apply IH. now right.
Qed.

Lemma split_chars (sep : ascii) (s : str) :
  forall f, In f (split sep s) -> forall c, In c f -> In c s.
Proof.
  induction s as [|c s IH]; intros f; cbn [split].
  - intros [<-|[]] d [].
  - destruct (Ascii.eqb c sep).
    + intros [<-|H] d Hd; [destruct Hd | right; now apply (IH f)].
    + destruct (split sep s) as [|w ws].
      * intros [<-|[]] d [Hd|[]]. now left.
      * intros [<-|H] d Hd.
        -- destruct Hd as [Hd|Hd]; [now left | right; apply (IH w); [now left | assumption]].
        -- right. apply (IH f); [now right | assumption].
Qed.

(** One more character that is not the separator extends the last field. *)
Lemma split_snoc (sep x : ascii) (body : str) :
  x <> sep ->
  exists fs last,
    split sep body = fs ++ [last] /\ split sep (body ++ [x]) = fs ++ [last ++ [x]].
Proof.
  intros Hx. induction body as [|c body (fs & last & H1 & H2)]; cbn [app split].
  - exists [], []. destruct (Ascii.eqb_spec x sep); [contradiction|]. split; reflexivity.
  - rewrite H1, H2. destruct (Ascii.eqb c sep).
    + exists ([] :: fs), last. split; reflexivity.
    + destruct fs as [|w fs]; cbn [app].
      * exists [], (c :: last). split; reflexivity.
      * exists ((c :: w) :: fs), last. split; reflexivity.
Qed.

Lemma readlines_shape (s : str) : Forall line_shape (readlines s).
Proof.
  induction s as [|c s IH]; cbn [readlines]; [constructor|].
  destruct (Ascii.eqb_spec c "010") as [->|Hc].
  - constructor; [|assumption]. exists []. split; [intros [] | now right].
  - destruct (readlines s) as [|l ls].
    + constructor; [|constructor]. exists [c]. split; [|now left].
      intros [H|[]]. now subst.
    + inversion IH as [|? ? (body & Hb & Hl) Hls]; subst. constructor; [|assumption].
      exists (c :: body). split.
      * intros [H|H]; [now subst | contradiction].
      * destruct Hl as [->| ->]; [now left | now right].
Qed.

(** The name field of a line holds neither a semicolon nor a newline. *)
Lemma name_field_chars (l f0 f1 f2 : str) (rest : list str) :
  line_shape l -> split ";" l = f0 :: f1 :: f2 :: rest ->
  ~ In ";"%char f1 /\ ~ In "010"%char f1.
Proof.
  intros (body & Hb & Hl) Hs. split.
  - apply (split_no_sep ";" l). rewrite Hs. right. now left.
  - destruct Hl as [->| ->].
    + intros H. apply Hb. apply (split_chars ";" body f1); [|assumption].
      rewrite Hs. right. now left.
    + destruct (split_snoc ";" "010" body) as (fs & last & H1 & H2); [discriminate|].
      unfold nl in Hs. rewrite H2 in Hs.
      destruct fs as [|a [|b fs]]; cbn [app] in Hs; try discriminate.
      injection Hs as _ <- _. intros H. apply Hb.
      apply (split_chars ";" body b); [|assumption]. rewrite H1. right. now left.
Qed.

Lemma lower_char_semicolon (c : ascii) : lower_char c = ";"%char -> c = ";"%char.
Proof. destruct c as [[] [] [] [] [] [] [] []]; cbn; intros H; try discriminate; reflexivity. Qed.

Lemma lower_char_newline (c : ascii) : lower_char c = "010"%char -> c = "010"%char.
Proof. destruct c as [[] [] [] [] [] [] [] []]; cbn; intros H; try discriminate; reflexivity. Qed.

Lemma lower_clean (n : str) :
  ~ In ";"%char n -> ~ In "010"%char n -> Forall clean_char (lower n).
Proof.
  intros H1 H2. apply Forall_forall. intros d Hd. unfold lower in Hd.
  apply in_map_iff in Hd as (c & <- & Hc). repeat split.
  - intros E. apply lower_char_semicolon in E. now subst.
  - intros E. apply lower_char_newline in E. now subst.
  - apply lower_char_idem.
Qed.

Lemma clean_lower (n : str) : Forall clean_char n -> lower n = n.
Proof.
  induction 1 as [|c n (_ & _ & Hc) _ IH]; [reflexivity|].
  unfold lower in *. cbn [map]. now rewrite Hc, IH.
Qed.

Lemma re_match_chars (nm label : str) :
  re_match nm = Some label -> forall c, In c label -> In c nm.
Proof.
  unfold re_match. destruct nm as [|c0 s']; [discriminate|].
  destruct (Ascii.eqb c0 "<"); [|discriminate].
  pose proof (span_nocomma_spec s') as Hspan.
  destruct (span_nocomma s') as [l rest]. destruct Hspan as (-> & _).
  destruct l as [|l0 l]; [discriminate|].
  destruct (_ || _); [|discriminate]. intros [= <-] c Hc.
  right. apply in_or_app. now left.
Qed.

Lemma add_line_clean (g ga : globals) (u : Z) (nm flags : str) :
  Forall clean_char nm -> clean_names (charlist g) ->
  add_line g u nm flags = Ok ga -> clean_names (charlist ga).
Proof.
  intros Hnm Hcl. unfold add_line.
  destruct (getitem nm 0) as [n0|]; cbn [bind]; [|discriminate].
  destruct (Ascii.eqb n0 "<").
  - destruct (rstart g) as [r|]; [|now intros [= <-]].
    destruct (truthy (Some r)); [|now intros [= <-]].
    destruct (re_match nm) as [g1|] eqn:Em; [|discriminate].
    destruct (xrange_call r (u + 1)) as [us|]; cbn [bind]; [|discriminate].
    intros [= <-]. cbn [charlist]. apply Forall_app. split; [assumption|].
    apply Forall_forall. intros c Hc. apply in_map_iff in Hc as (v & <- & _).
    cbn [name codepoint_init]. intros n [= <-].
    assert (Hg1 : Forall clean_char g1).
    { apply Forall_forall. intros d Hd. rewrite Forall_forall in Hnm.
      apply Hnm. eapply re_match_chars; eassumption. }
    now rewrite (clean_lower _ Hg1).
  - intros [= <-]. cbn [charlist]. apply Forall_app. split; [assumption|].
    constructor; [|constructor]. cbn [name codepoint_init]. now intros n [= <-].
Qed.

Lemma read_loop_clean (lines : list str) :
  Forall line_shape lines ->
  forall g g', clean_names (charlist g) -> read_loop lines g = Ok g' ->
               clean_names (charlist g').
Proof.
  induction 1 as [|l lines Hl _ IH]; intros g g' Hg; cbn [read_loop].
  - now intros [= <-].
  - destruct (process_line g l) as [g1|] eqn:E; cbn [bind]; [|discriminate].
    apply IH. apply process_line_ok in E as
      [(? & ? & ? & ? & _ & _ & ->) | (fu & fn & fl & rest & u & ga & Hs & _ & _ & Ha & Ht)];
      [assumption|].
    destruct (track_max_fields _ _ Ht) as [-> _].
    destruct (name_field_chars _ _ _ _ _ Hl Hs) as [H1 H2].
    eapply add_line_clean; [|eassumption|eassumption]. now apply lower_clean.
Qed.

Lemma place_clean (c c' : codepoint) (h h' : str) :
  place c h = Ok (c', h') ->
  Forall clean_char h -> (forall n, name c = Some n -> Forall clean_char n) ->
  Forall clean_char h' /\ name c' = None.
Proof.
  unfold place. destruct (name c) as [n|]; [|discriminate]. intros H Hh Hn.
  destruct (find h n =? -1); injection H as <- <-; split; trivial.
  apply Forall_app. split; [assumption | now apply Hn].
Qed.

Lemma heap_pass_clean (size : Z) (cl : list codepoint) :
  forall h cl' h',
    heap_pass size cl h = Ok (cl', h') ->
    Forall clean_char h -> clean_names cl ->
    Forall clean_char h' /\ clean_names cl'.
Proof.
  induction cl as [|c cl IH]; intros h cl' h' Hp Hh Hcl; cbn [heap_pass] in Hp.
  - injection Hp as <- <-. split; [assumption | constructor].
  - inversion Hcl as [|? ? Hc Hrest]; subst. destruct (negb (namesize c =? size)).
    + destruct (heap_pass size cl h) as [[l hh]|] eqn:E; cbn [bind fst snd] in Hp;
        [|discriminate].
      injection Hp as <- <-. destruct (IH _ _ _ E Hh Hrest) as [H1 H2].
      split; [assumption | now constructor].
    + destruct (place c h) as [[c1 h1]|] eqn:Ep; cbn [bind fst snd] in Hp; [|discriminate].
      destruct (heap_pass size cl h1) as [[l hh]|] eqn:E; cbn [bind fst snd] in Hp;
        [|discriminate].
      injection Hp as <- <-. destruct (place_clean _ _ _ _ Ep Hh Hc) as [Hh1 Hn1].
      destruct (IH _ _ _ E Hh1 Hrest) as [H1 H2].
      split; [assumption|]. constructor; [|assumption]. intros n. rewrite Hn1. discriminate.
Qed.

Lemma heap_loop_clean (sizes : list Z) :
  forall cl h cl' h',
    heap_loop sizes cl h = Ok (cl', h') ->
    Forall clean_char h -> clean_names cl ->
    Forall clean_char h'.
Proof.
  induction sizes as [|s sizes IH]; intros cl h cl' h'; cbn [heap_loop].
  - now intros [= _ <-].
  - destruct (heap_pass s cl h) as [[l hh]|] eqn:E; cbn [bind fst snd]; [|discriminate].
    intros H Hh Hcl. destruct (heap_pass_clean _ _ _ _ _ E Hh Hcl) as [H1 H2].
    eapply IH; eassumption.
Qed.

(** X18.  What the names and the heap are made of.  In every name the
    reading loop stores, and so in the heap built from them, there is no
    semicolon, no newline and no capital letter: the name field of a line
    cannot hold the first two, and lowercasing removes the third. *)
Theorem X18_names_and_heap_are_clean (input : str) (g : globals) :
  extract input = Ok g ->
  (forall c n, In c (charlist g) -> name c = Some n -> Forall clean_char n) /\
  exists cl' heap,
    build_nameheap (charlist g) (maxnamesize g) = Ok (cl', heap) /\
    Forall clean_char heap /\ lower heap = heap.
Proof.
  intros He.
  assert (Hcl : clean_names (charlist g)).
  { apply (read_loop_clean _ (readlines_shape input) initial g); [constructor | exact He]. }
  split.
  - intros c n Hc. unfold clean_names in Hcl. rewrite Forall_forall in Hcl. now apply Hcl.
  - pose proof (extract_inv _ _ He) as Hinv.
    destruct (extracted_fresh _ Hinv) as [Hf Hs].
    destruct (build_nameheap_placed _ _ Hf Hs) as (cl' & heap & Hb & _).
    exists cl', heap. split; [assumption|].
    assert (Hh : Forall clean_char heap).
    { unfold build_nameheap in Hb. eapply heap_loop_clean; [exact Hb | constructor | exact Hcl]. }
    split; [assumption | now apply clean_lower].
Qed.

Lemma X18_names_and_heap_are_clean_witness :
  (forall c n, In c (charlist sample_globals) -> name c = Some n -> Forall clean_char n) /\
  exists cl' heap,
    build_nameheap (charlist sample_globals) (maxnamesize sample_globals) = Ok (cl', heap) /\
    Forall clean_char heap /\ lower heap = heap.
Proof.
  apply (X18_names_and_heap_are_clean sample sample_globals). vm_compute. reflexivity.
Defined.

(** X19.  xrange works on C longs.  While a range start [r] other than 0
    is pending, a line whose name matches the range pattern, at a codepoint
    [u], ends the run with an OverflowError when [r] or [u + 1] is not a C
    long, or when the range would hold more than [sys.maxint] codepoints;
    nothing is added to the list. *)
Theorem X19_range_beyond_C_long_raises
        (g : globals) (line f_uchar f_name flags : str) (rest : list str)
        (r u : Z) (label : str) :
  split ";" line = f_uchar :: f_name :: flags :: rest ->
  is_skipped flags = Ok false ->
  int16 f_uchar = Ok u ->
  re_match (lower f_name) = Some label ->
  rstart g = Some r -> r <> 0 ->
  r < - maxint - 1 \/ maxint < r \/ u < - maxint - 2 \/ maxint <= u \/ maxint <= u - r ->
  process_line g line = Raise OverflowError.
Proof.
  intros Hs Hk Hu Hm Hr Hr0 Hout.
  rewrite (process_line_unskipped _ _ _ _ _ _ _ Hs Hk Hu).
  assert (H0 : getitem (lower f_name) 0 = Ok "<"%char).
  { unfold re_match in Hm. destruct (lower f_name) as [|c s']; [discriminate|].
    destruct (Ascii.eqb_spec c "<"); [now subst | discriminate]. }
  unfold add_line. rewrite H0. cbn [bind Ascii.eqb Bool.eqb]. rewrite Hr, Hm.
  assert (Ht : truthy (Some r) = true).
  { cbn [truthy]. destruct (Z.eqb_spec r 0); [contradiction | reflexivity]. }
  rewrite Ht.
  destruct (xrange_call r (u + 1)) as [us|e] eqn:Ex; cbn [bind].
  - apply xrange_call_ok in Ex as (_ & Ha & Hb & Hn).
    apply is_long_iff in Ha, Hb. lia.
  - apply xrange_call_raises in Ex. now subst.
Qed.

Lemma X19_range_beyond_C_long_raises_witness :
  process_line pending_globals line_past_long = Raise OverflowError.
Proof.
  apply (X19_range_beyond_C_long_raises pending_globals line_past_long
           (lit "7FFFFFFFFFFFFFFF") (lit "<Block, Last>") (lit "Lo") [lit "0"]
           256 maxint (lit "block")); try reflexivity.
  - discriminate.
  - right. right. right. left. discriminate.
Defined.
